(** * Pagination drivers of the Rally REST client ([lib/restapi.js])

    A shallow embedding of [RestApi.query], [RestApi.queryStream] and
    [RestApi.queryBatch], and the properties of their pagination, limit and
    batching logic; then of the HTTP layer below them ([lib/request.js])
    and of the single-object operations of [RestApi] above it.

    Modelling conventions.
    - JavaScript numbers that the drivers compute with (start indexes, page
      sizes, limits, counters, array lengths) are integers and are modelled
      by [Z]; fractional values and NaN are outside the model.  Numbers
      are doubles: an integer beyond [2^53] in magnitude is a number only
      if a double holds it.  The one sum taken of two numbers that come
      from outside, [result.StartIndex + options.pageSize], is taken as
      doubles take it ([Js.add]): rounded to the nearest double, and lost
      to [Infinity] beyond the largest one.  Counters and array lengths
      stay far below [2^53], where sums of integers are exact.  The
      difference [options.limit - totalFetched] is only compared with 0
      and with an array length, and only used as a number where it is
      smaller than an array length: rounding it changes none of that, so
      that it is taken exactly.
    - The fields of a server envelope that the code inspects dynamically
      ([StartIndex], [TotalResultCount]) are JavaScript values ([Js.value]),
      so that missing and non-numeric metadata can be expressed.
    - [this.request.get] and the user callbacks are effectful: they are
      functions over an explicit world state [W].  A callback is taken
      by the truthiness of the value it returns or resolves with; a
      callback that throws is outside the model.  The page callback of
      [queryStream] is handed the very array whose length the driver
      reads once the callback has answered: it also gives back the array
      as it leaves it.  The batch callback of [queryBatch] is handed a
      copy.
    - The caller's [options.requestOptions] are taken not to override
      [qs.start] and [qs.pagesize].
    - Promise chains that re-enter themselves ([loadRemainingPages],
      [processPages]) are recursive functions with a fuel argument that
      bounds the number of further page fetches; a chain that would need
      more fetches than the fuel allows is [Pending].
    - Each run records the requests it issued (and, for the streaming
      drivers, the callback invocations) in a log that the JavaScript code
      does not have; the log is only appended to and never read by the
      drivers. *)

From Stdlib Require Import ZArith List Bool Lia Ascii String DecimalString.
Import ListNotations.
Open Scope Z_scope.

Set Implicit Arguments.

(** ** JavaScript values *)

Module Js.

Inductive value : Type :=
| Undefined
| Null
| Boolean (b : bool)
| Num (z : Z)
| Str (s : string).

(** [ToBoolean]: what [v && ...] and [if (v)] test. *)
Definition truthy (v : value) : bool :=
  match v with
  | Undefined | Null => false
  | Boolean b => b
  | Num z => negb (z =? 0)
  | Str s => negb (String.eqb s EmptyString)
  end.

(** [typeof v === 'number'] *)
Definition is_number (v : value) : bool :=
  match v with
  | Num _ => true
  | _ => false
  end.

(** The double nearest to an integer: the integer itself up to [2^53] in
    magnitude, and beyond that the nearest multiple of the spacing of
    the doubles around it, a tie going to the even mantissa; [None]
    where that is beyond the largest double. *)
Definition round (z : Z) : option Z :=
  let a := Z.abs z in
  if a <=? 2 ^ 53 then Some z
  else
    let ulp := 2 ^ (Z.log2 a - 52) in
    let q := a / ulp in
    let r := a mod ulp in
    let m := if 2 * r <? ulp then q
             else if ulp <? 2 * r then q + 1
             else if Z.even q then q else q + 1 in
    if 2 ^ 1024 <=? m * ulp then None else Some (Z.sgn z * (m * ulp)).

(** [a + b] on numbers; [None]: an infinity. *)
Definition add (a b : Z) : option Z := round (a + b).

End Js.

Arguments Js.round : simpl never.
Arguments Js.add : simpl never.

(** [xs.length] *)
Definition len {A : Type} (xs : list A) : Z := Z.of_nat (List.length xs).

(** [xs.slice(0, n)] for an integer [n >= 0] *)
Definition slice0 {A : Type} (n : Z) (xs : list A) : list A :=
  firstn (Z.to_nat n) xs.

(** ** Data model *)

(** The caller's options, before the defaults are merged in; only the
    fields the pagination logic reads. *)
Record RawOptions : Type := {
  raw_start : option Z;
  raw_pageSize : option Z;
  raw_limit : option Z
}.

(** [options] after [_.merge({start: 1, pageSize: 200}, options)];
    [limit = None] is [options.limit === undefined]. *)
Record Options : Type := {
  start : Z;
  pageSize : Z;
  limit : option Z
}.

(** [_.merge({start: 1, pageSize: 200}, options)]: a default is kept
    where the caller's field is [undefined], and replaced by any other
    value, 0 included. *)
Definition mergeDefaults (o : RawOptions) : Options :=
  {| start := match raw_start o with Some s => s | None => 1 end;
     pageSize := match raw_pageSize o with Some p => p | None => 200 end;
     limit := raw_limit o |}.

(** The part of [requestOptions] that pagination touches: [qs.start] and
    [qs.pagesize].  The url and the other query-string entries are copied
    unchanged into every request. *)
Record Request : Type := {
  qs_start : Z;
  qs_pagesize : Z
}.

(** The object a successful [request.get] resolves with. *)
Record Envelope (A : Type) : Type := {
  Results : option (list A);
  StartIndex : Js.value;
  PageSize : Js.value;
  TotalResultCount : Js.value
}.

(** State of a promise as seen by the caller. [Pending]: the chain has
    not settled within the fuel given. *)
Inductive Promise (E R : Type) : Type :=
| Resolved (r : R)
| Rejected (e : E)
| Pending.

Arguments Resolved {E R} r.
Arguments Rejected {E R} e.
Arguments Pending {E R}.

(** ** Shared pagination logic *)

(** [optimalPageSize], lines 286-290 and 398-401 *)
Definition optimalPageSize (options : Options) : Z :=
  match limit options with
  | Some l => if 0 <? l then Z.min (pageSize options) l else pageSize options
  | None => pageSize options
  end.

(** The first [requestOptions.qs] *)
Definition requestOptions (options : Options) : Request :=
  {| qs_start := start options; qs_pagesize := optimalPageSize options |}.

(** [isValidPagination], lines 345-351 and 461-467 (its truthiness) *)
Definition isValidPagination {A} (options : Options) (result : Envelope A) : bool :=
  Js.truthy (StartIndex result) &&
  Js.is_number (StartIndex result) &&
  negb (pageSize options =? 0) &&
  (0 <? pageSize options) &&
  Js.truthy (TotalResultCount result) &&
  Js.is_number (TotalResultCount result).

(** [result.StartIndex + options.pageSize], as doubles add.  The sum
    is only used when [isValidPagination] holds, where the start index is
    a number; for any other operand (where JavaScript yields NaN or a
    string) the model has no integer to give and answers [None], as it
    does where the sum is [Infinity]. *)
Definition nextStart {A} (options : Options) (result : Envelope A) : option Z :=
  match StartIndex result with
  | Js.Num si => Js.add si (pageSize options)
  | _ => None
  end.

(** [hasMoreData], lines 354 and 469.  Its value matters only under
    [isValidPagination] (the test of lines 357 and 472 is their
    conjunction), where both operands are numbers and the page size is
    positive; on other operands the model answers [false], which is also
    what [Infinity <= result.TotalResultCount] gives (with a positive
    page size the sum of two doubles is never [-Infinity]). *)
Definition hasMoreData {A} (options : Options) (result : Envelope A) : bool :=
  match nextStart options result, TotalResultCount result with
  | Some n, Js.Num trc => n <=? trc
  | _, _ => false
  end.

(** [withinLimit], lines 355 and 470 *)
Definition withinLimit (options : Options) (count : Z) : bool :=
  match limit options with
  | None => true
  | Some l => count <? l
  end.

(** The test of lines 357 and 472 *)
Definition fetchNext {A} (options : Options) (count : Z) (result : Envelope A)
  : bool :=
  isValidPagination options result && hasMoreData options result &&
  withinLimit options count.

(** [nextPageOptions], lines 359-364 and 473-478: the first request's
    query string with [start] replaced.  It is only built after
    [fetchNext] has held, where [nextStart] is defined. *)
Definition nextPageOptions {A} (options : Options) (result : Envelope A)
  : Request :=
  {| qs_start := match nextStart options result with
                 | Some n => n
                 | None => start options
                 end;
     qs_pagesize := qs_pagesize (requestOptions options) |}.

(** What one page handler decides: settle with a value, or fetch again. *)
Inductive Step (R : Type) : Type :=
| Finish (r : R)
| NextPage (req : Request).

Arguments Finish {R} r.
Arguments NextPage {R} req.

(** ** [query] *)

Section Query.

Variables A Err W : Type.

Definition Response : Type := (Err + Envelope A)%type.

(** [self.request.get] *)
Variable get : W -> Request -> Response * W.

(** The closure variables of one [query] call, the world, and the log
    of the fetches issued so far. *)
Record QueryState : Type := {
  results : list A;
  totalFetched : Z;
  q_world : W;
  q_fetches : list (Request * Response)
}.

(** Lines 322-325, 333-336, 369-372: the envelope is overwritten with
    the accumulated records and handed back. *)
Definition finalResult (options : Options) (acc : list A) (result : Envelope A)
  : Envelope A :=
  {| Results := Some acc;
     StartIndex := Js.Num (start options);
     PageSize := Js.Num (len acc);
     TotalResultCount := TotalResultCount result |}.

(** Lines 344-373: the continuation decision once the page has been
    appended. *)
Definition continueOrFinish (options : Options) (acc : list A) (fetched : Z)
    (result : Envelope A) : (list A * Z) * Step (Envelope A) :=
  if fetchNext options fetched result
  then ((acc, fetched), NextPage (nextPageOptions options result))
  else ((acc, fetched), Finish (finalResult options acc result)).

(** The body of [loadRemainingPages] (lines 312-374) up to, and not
    including, the next [request.get]. *)
Definition loadRemainingPages_page (options : Options) (acc : list A) (fetched : Z)
    (result : Envelope A) : (list A * Z) * Step (Envelope A) :=
  match Results result with
  | Some pageResults =>
      if 0 <? len pageResults then
        match limit options with
        | Some l =>
            let remainingNeeded := l - fetched in
            if remainingNeeded <=? 0 then
              ((acc, fetched), Finish (finalResult options acc result))
            else if remainingNeeded <? len pageResults then
              let acc' := acc ++ slice0 remainingNeeded pageResults in
              ((acc', fetched + remainingNeeded),
               Finish (finalResult options acc' result))
            else
              continueOrFinish options (acc ++ pageResults)
                               (fetched + len pageResults) result
        | None =>
            continueOrFinish options (acc ++ pageResults)
                             (fetched + len pageResults) result
        end
      else continueOrFinish options acc fetched result
  | None => continueOrFinish options acc fetched result
  end.

(** [loadRemainingPages]; [fuel] bounds the further fetches. *)
Fixpoint loadRemainingPages (fuel : nat) (options : Options) (st : QueryState)
    (result : Envelope A) : QueryState * Promise Err (Envelope A) :=
  let '((acc, fetched), step) :=
    loadRemainingPages_page options (results st) (totalFetched st) result in
  let st' := {| results := acc; totalFetched := fetched;
                q_world := q_world st; q_fetches := q_fetches st |} in
  match step with
  | Finish r => (st', Resolved r)
  | NextPage req =>
      match fuel with
      | O => (st', Pending)
      | S fuel' =>
          let '(resp, w') := get (q_world st') req in
          let st'' := {| results := acc; totalFetched := fetched;
                         q_world := w';
                         q_fetches := q_fetches st' ++ [(req, resp)] |} in
          match resp with
          | inl e => (st'', Rejected e)
          | inr next => loadRemainingPages fuel' options st'' next
          end
      end
  end.

(** [query], lines 278-380: the first fetch, then [loadRemainingPages]. *)
Definition query (fuel : nat) (raw : RawOptions) (w : W)
  : QueryState * Promise Err (Envelope A) :=
  let options := mergeDefaults raw in
  let req := requestOptions options in
  let '(resp, w') := get w req in
  let st := {| results := []; totalFetched := 0; q_world := w';
               q_fetches := [(req, resp)] |} in
  match resp with
  | inl e => (st, Rejected e)
  | inr result => loadRemainingPages fuel options st result
  end.

End Query.

(** ** [queryStream] *)

Module Stream.

Section Stream.

Variables A Err W : Type.

(** [self.request.get] *)
Variable get : W -> Request -> Response A Err * W.

(** [pageInfo], lines 440-445 *)
Record PageInfo : Type := {
  startIndex : Js.value;
  pi_pageSize : Z;
  totalResultCount : Js.value;
  pi_totalProcessed : Z
}.

(** [onPageCallback]: its (awaited) answer, as a boolean, the page array
    as the callback leaves it (it is handed the array itself, not a
    copy, and may add to it or remove from it), and its effect. *)
Variable onPageCallback : W -> list A -> PageInfo -> (bool * list A) * W.

(** [{ totalProcessed, completed }] *)
Record StreamResult : Type := {
  sr_totalProcessed : Z;
  completed : bool
}.

(** What a run does, in order. *)
Inductive Event : Type :=
| Fetched (req : Request) (resp : Response A Err)
| Delivered (page : list A) (info : PageInfo) (continueProcessing : bool)
            (after : list A).

(** The closure variable of one [queryStream] call, the world and the
    log. *)
Record StreamState : Type := {
  totalProcessed : Z;
  s_world : W;
  s_events : list Event
}.

(** Lines 428-437: the page as handed to the callback. *)
Definition limitedPageResults (options : Options) (processed : Z)
    (pageResults : list A) : list A :=
  match limit options with
  | Some l =>
      let remainingNeeded := l - processed in
      if remainingNeeded <? len pageResults
      then slice0 remainingNeeded pageResults
      else pageResults
  | None => pageResults
  end.

(** Lines 460-484 up to the next [request.get]. *)
Definition morePages (options : Options) (processed : Z) (result : Envelope A)
  : Step StreamResult :=
  if fetchNext options processed result
  then NextPage (nextPageOptions options result)
  else Finish {| sr_totalProcessed := processed; completed := true |}.

(** Lines 439-457: call the page callback, count the page, and decide.
    The page is counted by [limitedPageResults.length] read after the
    callback has answered (line 448): by the length of the array as the
    callback left it. *)
Definition deliverPage (options : Options) (st : StreamState)
    (result : Envelope A) (limited : list A) : StreamState * Step StreamResult :=
  let pageInfo :=
    {| startIndex := StartIndex result;
       pi_pageSize := len limited;
       totalResultCount := TotalResultCount result;
       pi_totalProcessed := totalProcessed st + len limited |} in
  let '((continueProcessing, after), w') :=
    onPageCallback (s_world st) limited pageInfo in
  let processed := totalProcessed st + len after in
  let st' :=
    {| totalProcessed := processed;
       s_world := w';
       s_events := s_events st
                   ++ [Delivered limited pageInfo continueProcessing after] |} in
  if negb continueProcessing then
    (st', Finish {| sr_totalProcessed := processed; completed := false |})
  else
    match limit options with
    | Some l =>
        if l <=? processed
        then (st', Finish {| sr_totalProcessed := processed; completed := true |})
        else (st', morePages options processed result)
    | None => (st', morePages options processed result)
    end.

(** The body of [processPages] (lines 423-485) up to, and not including,
    the next [request.get]. *)
Definition processPages_page (options : Options) (st : StreamState)
    (result : Envelope A) : StreamState * Step StreamResult :=
  match Results result with
  | Some pageResults =>
      if 0 <? len pageResults then
        match limit options with
        | Some l =>
            if l - totalProcessed st <=? 0 then
              (st, Finish {| sr_totalProcessed := totalProcessed st;
                             completed := true |})
            else
              deliverPage options st result
                (limitedPageResults options (totalProcessed st) pageResults)
        | None =>
            deliverPage options st result
              (limitedPageResults options (totalProcessed st) pageResults)
        end
      else (st, morePages options (totalProcessed st) result)
  | None => (st, morePages options (totalProcessed st) result)
  end.

(** [processPages]; [fuel] bounds the further fetches. *)
Fixpoint processPages (fuel : nat) (options : Options) (st : StreamState)
    (result : Envelope A) : StreamState * Promise Err StreamResult :=
  let '(st', step) := processPages_page options st result in
  match step with
  | Finish r => (st', Resolved r)
  | NextPage req =>
      match fuel with
      | O => (st', Pending)
      | S fuel' =>
          let '(resp, w') := get (s_world st') req in
          let st'' := {| totalProcessed := totalProcessed st';
                         s_world := w';
                         s_events := s_events st' ++ [Fetched req resp] |} in
          match resp with
          | inl e => (st'', Rejected e)
          | inr nextResult => processPages fuel' options st'' nextResult
          end
      end
  end.

(** [queryStream], lines 390-491 *)
Definition queryStream (fuel : nat) (raw : RawOptions) (w : W)
  : StreamState * Promise Err StreamResult :=
  let options := mergeDefaults raw in
  let req := requestOptions options in
  let '(resp, w') := get w req in
  let st := {| totalProcessed := 0; s_world := w';
               s_events := [Fetched req resp] |} in
  match resp with
  | inl e => (st, Rejected e)
  | inr result => processPages fuel options st result
  end.

(** The requests a log contains, in order. *)
Fixpoint requestsOf (evs : list Event) : list Request :=
  match evs with
  | [] => []
  | Fetched req _ :: evs' => req :: requestsOf evs'
  | Delivered _ _ _ _ :: evs' => requestsOf evs'
  end.

(** The pages a log shows handed to the callback, in order. *)
Fixpoint pagesOf (evs : list Event) : list (list A) :=
  match evs with
  | [] => []
  | Fetched _ _ :: evs' => pagesOf evs'
  | Delivered page _ _ _ :: evs' => page :: pagesOf evs'
  end.

(** The same pages as their callbacks left them. *)
Fixpoint leftOf (evs : list Event) : list (list A) :=
  match evs with
  | [] => []
  | Fetched _ _ :: evs' => leftOf evs'
  | Delivered _ _ _ after :: evs' => after :: leftOf evs'
  end.

End Stream.

Arguments Fetched {A Err} req resp.
Arguments Delivered {A Err} page info continueProcessing after.

End Stream.

(** ** [queryBatch] *)

Module Batch.

Section Batch.

Variables A Err W : Type.

(** [self.request.get] *)
Variable get : W -> Request -> Response A Err * W.

(** [batchInfo], lines 520-525 and 541-546 *)
Record BatchInfo : Type := {
  batchNumber : Z;
  bi_batchSize : Z;
  bi_totalProcessed : Z;
  totalResultCount : Js.value
}.

(** [onBatchCallback]: its (awaited) answer, as a boolean, and its effect. *)
Variable onBatchCallback : W -> list A -> BatchInfo -> bool * W.

(** [{ totalProcessed, totalBatches, completed }] *)
Record BatchResult : Type := {
  br_totalProcessed : Z;
  totalBatches : Z;
  completed : bool
}.

(** The closure variables of one [queryBatch] call, the world, and the
    log of the batch callback's invocations. *)
Record BatchState : Type := {
  batches : list (list A);
  currentBatch : list A;
  totalProcessed : Z;
  b_world : W;
  b_calls : list (list A * BatchInfo * bool)
}.

(** Lines 503-507: the batch size when the callback is passed in its
    place is [options.pageSize || 200], read from the caller's options. *)
Definition defaultBatchSize (raw : RawOptions) : Z :=
  match raw_pageSize raw with
  | Some p => if p =? 0 then 200 else p
  | None => 200
  end.

(** Lines 519-530: hand [batch] to the callback and book it. *)
Definition emitBatch (trc : Js.value) (st : BatchState) (batch : list A)
  : bool * BatchState :=
  let batchInfo :=
    {| batchNumber := len (batches st) + 1;
       bi_batchSize := len batch;
       bi_totalProcessed := totalProcessed st + len batch;
       totalResultCount := trc |} in
  let '(continueProcessing, w') := onBatchCallback (b_world st) batch batchInfo in
  (continueProcessing,
   {| batches := batches st ++ [batch];
      currentBatch := [];
      totalProcessed := totalProcessed st + len batch;
      b_world := w';
      b_calls := b_calls st ++ [(batch, batchInfo, continueProcessing)] |}).

(** Lines 513-538: the page callback [queryBatch] gives to [queryStream];
    the [for ... of] loop over the page with its early [return false]. *)
Fixpoint onPage (batchSize : Z) (st : BatchState) (pageResults : list A)
    (pageInfo : Stream.PageInfo) : bool * BatchState :=
  match pageResults with
  | [] => (true, st)
  | result :: rest =>
      let pushed := currentBatch st ++ [result] in
      if batchSize <=? len pushed then
        let '(continueProcessing, st') :=
          emitBatch (Stream.totalResultCount pageInfo) st pushed in
        if continueProcessing
        then onPage batchSize st' rest pageInfo
        else (false, st')
      else
        onPage batchSize
               {| batches := batches st; currentBatch := pushed;
                  totalProcessed := totalProcessed st;
                  b_world := b_world st; b_calls := b_calls st |}
               rest pageInfo
  end.

(** That callback as [queryStream] sees it: the loop reads the page and
    does not change it, and the batch callback is given a copy of the
    pending batch. *)
Definition pageCallback (batchSize : Z) (st : BatchState) (pageResults : list A)
    (pageInfo : Stream.PageInfo) : (bool * list A) * BatchState :=
  let '(continueProcessing, st') := onPage batchSize st pageResults pageInfo in
  ((continueProcessing, pageResults), st').

(** [request.get] does not touch the closure variables. *)
Definition getB (st : BatchState) (req : Request) : Response A Err * BatchState :=
  let '(resp, w') := get (b_world st) req in
  (resp,
   {| batches := batches st; currentBatch := currentBatch st;
      totalProcessed := totalProcessed st;
      b_world := w'; b_calls := b_calls st |}).

(** Lines 538-558: the [then] handler, with the flush of the remainder. *)
Definition flush (st : BatchState) (streamResult : Stream.StreamResult)
  : BatchState * BatchResult :=
  let st' :=
    if 0 <? len (currentBatch st) then
      snd (emitBatch (Js.Num (Stream.sr_totalProcessed streamResult)) st
                     (currentBatch st))
    else st in
  (st',
   {| br_totalProcessed := totalProcessed st';
      totalBatches := len (batches st');
      completed := Stream.completed streamResult |}).

(** The state [queryBatch] starts the stream in. *)
Definition initial (w : W) : BatchState :=
  {| batches := []; currentBatch := []; totalProcessed := 0;
     b_world := w; b_calls := [] |}.

(** The underlying [this.queryStream(options, async (pageResults,
    pageInfo) => ...)] of a [queryBatch] call. *)
Definition stream (fuel : nat) (raw : RawOptions) (batchSize : Z) (w : W)
  : Stream.StreamState A Err BatchState * Promise Err Stream.StreamResult :=
  Stream.queryStream getB (pageCallback batchSize) fuel raw (initial w).

(** [queryBatch], lines 501-559; [batchSizeArg = None] is the overload
    without a batch size. *)
Definition queryBatch (fuel : nat) (raw : RawOptions) (batchSizeArg : option Z)
    (w : W) : BatchState * Promise Err BatchResult :=
  let batchSize :=
    match batchSizeArg with
    | Some b => b
    | None => defaultBatchSize raw
    end in
  let '(sst, p) := stream fuel raw batchSize w in
  match p with
  | Resolved streamResult =>
      let '(st', r) := flush (Stream.s_world sst) streamResult in
      (st', Resolved r)
  | Rejected e => (Stream.s_world sst, Rejected e)
  | Pending => (Stream.s_world sst, Pending)
  end.

End Batch.

End Batch.

(** ** The HTTP layer ([lib/request.js])

    [Request] wraps an axios instance.  An options object is modelled by
    its [url], its query string [qs] and its JSON body [json]; whatever
    else the caller puts there for axios to read (headers, timeouts) is
    passed on by [doRequest] untouched and is not modelled.  The axios
    instance is an effectful function [httpRequest] over the world, and
    the promise it returns has settled when [doRequest] looks at it.  A
    session holds the token next to the world, and a log of the requests
    handed to axios that the JavaScript code does not have. *)

Module Transport.

(** [String.prototype.toUpperCase], on ASCII letters. *)
Definition upper (c : ascii) : ascii :=
  let n := nat_of_ascii c in
  if ((97 <=? n) && (n <=? 122))%nat then ascii_of_nat (n - 32) else c.

Fixpoint toUpperCase (s : string) : string :=
  match s with
  | EmptyString => EmptyString
  | String c rest => String (upper c) (toUpperCase rest)
  end.

(** What a template literal makes of a primitive value. *)
Definition toString (v : Js.value) : string :=
  match v with
  | Js.Undefined => "undefined"
  | Js.Null => "null"
  | Js.Boolean true => "true"
  | Js.Boolean false => "false"
  | Js.Num z => NilZero.string_of_int (Z.to_int z)
  | Js.Str s => s
  end.

(** A flat object, such as a query string: its properties in insertion
    order. *)
Definition Entries : Type := list (string * Js.value).

(** [key in o] *)
Fixpoint has (key : string) (o : Entries) : bool :=
  match o with
  | [] => false
  | (k, _) :: rest => String.eqb k key || has key rest
  end.

(** [o[key]] *)
Fixpoint prop (key : string) (o : Entries) : Js.value :=
  match o with
  | [] => Js.Undefined
  | (k, v) :: rest => if String.eqb k key then v else prop key rest
  end.

(** [o[key] = v]: an existing property keeps its place. *)
Fixpoint assign (key : string) (v : Js.value) (o : Entries) : Entries :=
  match o with
  | [] => [(key, v)]
  | (k, x) :: rest =>
      if String.eqb k key then (k, v) :: rest else (k, x) :: assign key v rest
  end.

(** What [_.merge] does with a primitive source value: [undefined] does
    not overwrite a property that is there. *)
Definition assignMergeValue (o : Entries) (key : string) (v : Js.value) : Entries :=
  match v with
  | Js.Undefined => if has key o then o else assign key v o
  | _ => assign key v o
  end.

(** The error objects of the layer: [generateError] makes an [Error]
    with the first message and all of them in [errors]; [TypeError] is
    the exception of a property read on [undefined] or [null]. *)
Inductive Failure : Type :=
| Generated (message : string) (errors : list string)
| TypeError.

Definition generateError (errorMessages : list string) : Failure :=
  Generated (hd EmptyString errorMessages) errorMessages.

Section Transport.

(** JSON bodies sent; the properties of a result other than [Errors] and
    [Warnings]; the world. *)
Variables J R W : Type.

(** [result.SecurityToken] *)
Variable securityToken : R -> Js.value.

Record Options : Type := {
  url : string;
  qs : option Entries;
  json : option J           (* [Some]: an object *)
}.

(** What axios is called with. *)
Record AxiosOptions : Type := {
  method : string;
  a_url : string;
  params : option Entries;
  data : option J
}.

(** A result object of the Rally API: [Errors] and [Warnings], when
    there, are arrays of strings. *)
Record Result : Type := {
  Errors : option (list string);
  Warnings : option (list string);
  fields : R
}.

Inductive Value : Type :=
| Primitive (v : Js.value)
| Object (o : Result).

(** [response.data]: a primitive, or an object taken by its values in
    property order. *)
Inductive Body : Type :=
| NotObject (v : Js.value)
| Values (vs : list Value).

(** How the promise of axios settles: with a response, or with an error
    that has a [response], has only a [request], or has neither. *)
Inductive HttpOutcome : Type :=
| Answered (status : Z) (body : Body)
| ErrorStatus (status : Z) (statusText : string)
| NoResponse
| SetupError (message : string).

Variable httpRequest : W -> AxiosOptions -> HttpOutcome * W.
Variable wsapiUrl : string.

(** [this._hasKey]: whether the [zsessionid] header was configured. *)
Variable _hasKey : bool.

Record Session : Type := {
  _token : Js.value;
  world : W;
  sent : list AxiosOptions
}.

Definition axiosOptions (method : string) (options : Options) : AxiosOptions :=
  {| method := toUpperCase method;
     a_url := url options;
     params := qs options;
     data := json options |}.

(** The [then] and [catch] handlers of [doRequest]. *)
Definition settle (options : Options) (outcome : HttpOutcome) : Failure + Value :=
  match outcome with
  | Answered status (NotObject body) =>
      inl (generateError
             [url options ++ ": " ++ toString (Js.Num status) ++ "! body="
              ++ toString body])%string
  | Answered status (Values vs) =>
      let result := hd (Primitive Js.Undefined) vs in
      match result with
      | Object o =>
          match Errors o with
          | Some (e :: es) => inl (generateError (e :: es))
          | _ => inr result
          end
      | Primitive _ => inr result
      end
  | ErrorStatus status statusText =>
      inl (generateError
             [url options ++ ": " ++ toString (Js.Num status) ++ "! "
              ++ statusText])%string
  | NoResponse =>
      inl (generateError ["Unable to connect to server: " ++ wsapiUrl])%string
  | SetupError message => inl (generateError [message])
  end.

Definition doRequest (method : string) (options : Options) (s : Session)
  : (Failure + Value) * Session :=
  let request := axiosOptions method options in
  let (outcome, w) := httpRequest (world s) request in
  (settle options outcome,
   {| _token := _token s; world := w; sent := sent s ++ [request] |}).

Definition authorizeOptions : Options :=
  {| url := "/security/authorize"; qs := None; json := None |}.

Definition auth (s : Session) : (Failure + unit) * Session :=
  let (r, s1) := doRequest "get" authorizeOptions s in
  let store token :=
    {| _token := token; world := world s1; sent := sent s1 |} in
  match r with
  | inl e => (inl e, s1)
  | inr (Object o) => (inr tt, store (securityToken (fields o)))
  | inr (Primitive Js.Undefined) | inr (Primitive Js.Null) => (inl TypeError, s1)
  | inr (Primitive _) => (inr tt, store Js.Undefined)
  end.

(** [_.merge({}, options, {qs: {key: token}})] *)
Definition withKey (token : Js.value) (options : Options) : Options :=
  {| url := url options;
     qs := Some (assignMergeValue
                   (match qs options with Some o => o | None => [] end)
                   "key" token);
     json := json options |}.

Definition doSecuredRequest (method : string) (options : Options) (s : Session)
  : (Failure + Value) * Session :=
  if _hasKey then doRequest method options s
  else
    let doRequest' (s : Session) :=
      doRequest method (withKey (_token s) options) s in
    if Js.truthy (_token s) then doRequest' s
    else
      let (authorized, s1) := auth s in
      match authorized with
      | inl e => (inl e, s1)
      | inr _ => doRequest' s1
      end.

Definition get (options : Options) := doRequest "get" options.
Definition post (options : Options) := doSecuredRequest "post" options.
Definition put (options : Options) := doSecuredRequest "put" options.
Definition del (options : Options) := doSecuredRequest "delete" options.

(** A client that makes one call after the other, each when the one
    before has settled. *)
Inductive Call : Type :=
| Get (options : Options)
| Post (options : Options)
| Put (options : Options)
| Del (options : Options).

Definition call (c : Call) (s : Session) : (Failure + Value) * Session :=
  match c with
  | Get options => get options s
  | Post options => post options s
  | Put options => put options s
  | Del options => del options s
  end.

Fixpoint calls (cs : list Call) (s : Session)
  : list (Failure + Value) * Session :=
  match cs with
  | [] => ([], s)
  | c :: rest =>
      let (r, s1) := call c s in
      let (rs, s2) := calls rest s1 in
      (r :: rs, s2)
  end.

End Transport.

Arguments Primitive {R} v.
Arguments NotObject {R} v.
Arguments ErrorStatus {R} status statusText.
Arguments NoResponse {R}.
Arguments SetupError {R} message.

End Transport.

(** ** The single-object operations of [RestApi] ([lib/restapi.js])

    [create], [update], [del], [get], [add] and [remove] over the HTTP
    layer.  [refUtils] is a module of its own: [getRelative] and
    [getType] are parameters here.  A ref is given as a primitive value
    (a string, as a rule).  The caller's [options.requestOptions] are
    taken to be absent, so that the options object sent is the one built
    by the operation merged with [optionsToRequestOptions(options)]. *)

Module RestApi.

Import Transport.

(** [options.scope] *)
Record Scope : Type := {
  project : Js.value;
  up : option Js.value;        (* [Some]: [hasOwnProperty('up')] *)
  down : option Js.value;
  workspace : Js.value
}.

(** [options.fetch] *)
Inductive Fetch : Type :=
| FetchArray (names : list string)
| FetchString (s : string)
| NoFetch.

(** An object with the single property [key]. *)
Definition Json (D : Type) : Type := (string * D)%type.

(** What [RestApi.get] resolves with. *)
Record GetResult (R : Type) : Type := {
  g_Errors : list string;
  g_Warnings : list string;
  g_Object : option R
}.

Section RestApi.

(** The data of an object; the properties of a result other than
    [Errors] and [Warnings]; the world. *)
Variables D R W : Type.

Variable securityToken : R -> Js.value.

(** [refUtils.getRelative]: the relative ref, [None] for [null]. *)
Variable getRelative : Js.value -> option string.

(** [refUtils.getType] *)
Variable getType : Js.value -> string.

Variable httpRequest : W -> AxiosOptions (Json D) -> HttpOutcome R * W.
Variable wsapiUrl : string.
Variable _hasKey : bool.

Record ApiOptions : Type := {
  ref : Js.value;
  type : string;
  collection : string;
  data : D;
  scope : option Scope;
  fetch : Fetch
}.

Abbreviation Outcome X := ((Failure + X) * Session (Json D) W)%type.

(** The value a query string gets for a ref. *)
Definition relative (r : Js.value) : Js.value :=
  match getRelative r with
  | Some s => Js.Str s
  | None => Js.Null
  end.

Definition optionsToRequestOptions (options : ApiOptions) : Entries :=
  (match scope options with
   | Some sc =>
       if Js.truthy (project sc) then
         [("project"%string, relative (project sc))]
         ++ (match up sc with
             | Some u => [("projectScopeUp"%string, u)]
             | None => []
             end)
         ++ (match down sc with
             | Some d => [("projectScopeDown"%string, d)]
             | None => []
             end)
       else if Js.truthy (workspace sc) then
         [("workspace"%string, relative (workspace sc))]
       else []
   | None => []
   end)
  ++ (match fetch options with
      | FetchArray names => [("fetch"%string, Js.Str (String.concat "," names))]
      | FetchString s => [("fetch"%string, Js.Str s)]
      | NoFetch => []
      end).

(** [relativeRef], when it is truthy. *)
Definition relativeRef (options : ApiOptions) : option string :=
  match getRelative (ref options) with
  | Some r => if String.eqb r EmptyString then None else Some r
  | None => None
  end.

(** The error of an operation on a ref that has no relative form. *)
Definition invalidRef (options : ApiOptions) : Failure :=
  Generated ("Invalid ref: " ++ toString (ref options))
            ["Invalid ref: " ++ toString (ref options)]%string.

Definition requestFor (url : string) (json : option (Json D)) (options : ApiOptions)
  : Options (Json D) :=
  {| url := url; qs := Some (optionsToRequestOptions options); json := json |}.

Definition create (options : ApiOptions) (s : Session (Json D) W) : Outcome (Value R) :=
  post securityToken httpRequest wsapiUrl _hasKey
    (requestFor ("/" ++ type options ++ "/create")
                (Some (type options, data options)) options) s.


Definition del (options : ApiOptions) (s : Session (Json D) W) : Outcome (Value R) :=
  match relativeRef options with
  | None => (inl (invalidRef options), s)
  | Some r =>
      Transport.del securityToken httpRequest wsapiUrl _hasKey
        (requestFor r None options) s
  end.

(** The [then] handler of [get].  [_.omit] keeps the other properties
    of a result object; a primitive result has none to keep (the
    characters of a string result are not modelled). *)
Definition wrap (result : Value R) : GetResult R :=
  match result with
  | Object o =>
      {| g_Errors := match Errors o with Some es => es | None => [] end;
         g_Warnings := match Warnings o with Some ws => ws | None => [] end;
         g_Object := Some (fields o) |}
  | Primitive _ => {| g_Errors := []; g_Warnings := []; g_Object := None |}
  end.

Definition get (options : ApiOptions) (s : Session (Json D) W) : Outcome (GetResult R) :=
  match relativeRef options with
  | None => (inl (invalidRef options), s)
  | Some r =>
      let (result, s1) :=
        Transport.get httpRequest wsapiUrl (requestFor r None options) s in
      (match result with
       | inl e => inl e
       | inr v => inr (wrap v)
       end, s1)
  end.

Definition collectionPost (options : ApiOptions) (operation : string)
    (s : Session (Json D) W) : Outcome (Value R) :=
  match relativeRef options with
  | None => (inl (invalidRef options), s)
  | Some r =>
      post securityToken httpRequest wsapiUrl _hasKey
        (requestFor (r ++ "/" ++ collection options ++ "/" ++ operation)
                    (Some ("CollectionItems"%string, data options)) options) s
  end.

Definition add (options : ApiOptions) := collectionPost options "add".

(** *** [query] over the layer

    The fetch of a page as [query] sees it: [this.request.get] on the
    options object of the page ([render]: the url and the query string
    around [start] and [pagesize]), and the envelope read off the result
    ([envelopeOf]).  [loadRemainingPages] reads [result.Results] and
    writes [result.Results]: a result that is a primitive makes the chain
    reject with a [TypeError] before anything else happens, as a rejected
    fetch does. *)

Variable A : Type.
Variable envelopeOf : R -> Envelope A.
Variable render : Request -> Options (Json D).

Definition fetchPage (s : Session (Json D) W) (req : Request)
  : Response A Failure * Session (Json D) W :=
  let (result, s1) := Transport.get httpRequest wsapiUrl (render req) s in
  (match result with
   | inl e => inl e
   | inr (Object o) => inr (envelopeOf (fields o))
   | inr (Primitive _) => inl TypeError
   end, s1).

End RestApi.

End RestApi.

(** ** Fetcher stubs

    The fetchers of the repository's test suites: records are integers
    (the numeric id of [_ref: `/defect/${i}`]), an error is a string. *)

Module Stub.

(** [Array.from({length: count}, (_, i) => i + start)]: the ids
    [start, ..., start + count - 1]. *)
Definition ids (start count : Z) : list Z :=
  map (fun i => start + Z.of_nat i) (seq 0 (Z.to_nat count)).

(** [generateMockResults(start, count, total)] of the performance tests. *)
Definition generateMockResults (start count total : Z) : Envelope Z :=
  {| Results := Some (ids start count);
     StartIndex := Js.Num start;
     PageSize := Js.Undefined;
     TotalResultCount := Js.Num total |}.

(** The world of a test: how many times the stub has been called, and
    whatever the test's callback keeps ([S]). *)
Definition World (S : Type) : Type := (nat * S)%type.

(** [stub.onCall(0).resolves(r0); stub.onCall(1).resolves(r1); ...]: a
    call past the scripted ones is answered with [fallback]. *)
Definition onCall {S} (scripted : list (Response Z string))
    (fallback : Response Z string) (w : World S) (_ : Request)
  : Response Z string * World S :=
  (nth (fst w) scripted fallback, (Datatypes.S (fst w), snd w)).

(** [stub.returns(Promise.resolve(r))]: every call gets [r]. *)
Definition returns {S} (r : Envelope Z) (w : World S) (_ : Request)
  : Response Z string * World S :=
  (inr r, (Datatypes.S (fst w), snd w)).

(** A server holding the records [1..total] that answers every request
    with the page asked for, cut at the end of the collection. *)
Definition pagedServer {S} (total : Z) (w : World S) (req : Request)
  : Response Z string * World S :=
  (inr (generateMockResults (qs_start req)
          (Z.max 0 (Z.min (qs_pagesize req) (total - qs_start req + 1))) total),
   (Datatypes.S (fst w), snd w)).

(** A batch callback that keeps nothing and always answers [true]. *)
Definition always {S I} (w : World S) (_ : list Z) (_ : I) : bool * World S :=
  (true, w).

(** A page callback that keeps nothing, leaves its page as it is and
    always answers [true]. *)
Definition alwaysOn {S I} (w : World S) (pageResults : list Z) (_ : I)
  : (bool * list Z) * World S :=
  ((true, pageResults), w).

(** [{ pageSize, limit }] of a test's options. *)
Definition options (pageSize limit : option Z) : RawOptions :=
  {| raw_start := None; raw_pageSize := pageSize; raw_limit := limit |}.

End Stub.

(** ** Test inputs

    Envelopes, callbacks and calls of the repository's test suites, and
    inputs at which the claims are evaluated. *)

(** An envelope whose start index is negative, with one record, and the
    envelope of a last page. *)
Definition negativeStart : Envelope Z :=
  {| Results := Some [1];
     StartIndex := Js.Num (-5);
     PageSize := Js.Undefined;
     TotalResultCount := Js.Num 100 |}.

Definition lastPage : Envelope Z :=
  {| Results := Some [2];
     StartIndex := Js.Num 95;
     PageSize := Js.Undefined;
     TotalResultCount := Js.Num 100 |}.

(** The test [should handle invalid pagination parameters safely]: no
    start index, total result count ['invalid'], limit 10. *)
Definition invalidPagination : Envelope Z :=
  {| Results := Some [1];
     StartIndex := Js.Undefined;
     PageSize := Js.Undefined;
     TotalResultCount := Js.Str "invalid" |}.

(** The envelope of the tests on [pageSize: 0]: one record, total 1. *)
Definition oneRecord : Envelope Z :=
  {| Results := Some [1];
     StartIndex := Js.Num 1;
     PageSize := Js.Num 1;
     TotalResultCount := Js.Num 1 |}.

(** The envelope of the test on [limit: 0]: two records, total 100. *)
Definition twoRecords : Envelope Z :=
  {| Results := Some [1; 2];
     StartIndex := Js.Num 1;
     PageSize := Js.Num 2;
     TotalResultCount := Js.Num 100 |}.

(** A page callback that answers [false]. *)
Definition stopAtOnce {S I} (w : Stub.World S) (pageResults : list Z) (_ : I)
  : (bool * list Z) * Stub.World S :=
  ((false, pageResults), w).





(** The two pages (200 and 150 records, total 350) of the test [should
    process results in specified batch sizes]. *)
Definition twoPages : list (Response Z string) :=
  [ inr (Stub.generateMockResults 1 200 350);
    inr (Stub.generateMockResults 201 150 350) ].

(** The [queryBatch] call of that test: page size 200, batches of 75, a
    callback that always continues. *)
Definition batchesOf75 : Batch.BatchState Z (Stub.World unit)
                         * Promise string Batch.BatchResult :=
  Batch.queryBatch (Stub.onCall twoPages (inl "not scripted"%string))
    Stub.always 5 (Stub.options (Some 200) None) (Some 75) (O, tt).

(** [queryBatch] with [{pageSize: 200, limit: 100}] and batches of 75
    against a server that reports 350 results. *)
Definition limitedBatches : Batch.BatchState Z (Stub.World unit)
                            * Promise string Batch.BatchResult :=
  Batch.queryBatch (Stub.pagedServer 350) Stub.always 5
    (Stub.options (Some 200) (Some 100)) (Some 75) (O, tt).

(** [{start: 2^53 + 2, pageSize: 3, limit: 24}]: start indexes that
    doubles hold two apart. *)
Definition farStart : RawOptions :=
  {| raw_start := Some (2 ^ 53 + 2); raw_pageSize := Some 3;
     raw_limit := Some 24 |}.

(** A first page of 100 records out of 1000, then a rejected fetch. *)
Definition failingSecondFetch {S} : Stub.World S -> Request ->
                                    Response Z string * Stub.World S :=
  Stub.onCall [inr (Stub.generateMockResults 1 100 1000)]
              (inl "Unable to connect to server"%string).

(** *** The HTTP layer under test

    The stubs of [spec/request.spec.js]: a result is taken by its
    properties besides [Errors] and [Warnings], the world counts the
    requests. *)

Definition securityTokenOf (r : Transport.Entries) : Js.value :=
  Transport.prop "SecurityToken" r.

(** [{OperationResult: {Errors: [], Warnings: [], ...properties}}] *)
Definition operationResult (properties : Transport.Entries)
  : Transport.Body Transport.Entries :=
  Transport.Values
    [Transport.Object
       {| Transport.Errors := Some [];
          Transport.Warnings := Some [];
          Transport.fields := properties |}].

(** A server that hands out ['a secret token'] and answers every other
    request with an empty operation result. *)
Definition tokenServer (w : nat) (request : Transport.AxiosOptions unit)
  : Transport.HttpOutcome Transport.Entries * nat :=
  (if String.eqb (Transport.a_url request) "/security/authorize"
   then Transport.Answered 200
          (operationResult [("SecurityToken", Js.Str "a secret token")])
   else Transport.Answered 200 (operationResult []),
   S w)%string.

(** A server that refuses to authorize:
    [{OperationResult: {Errors: ['Some key error']}}]. *)
Definition refusingServer (w : nat) (request : Transport.AxiosOptions unit)
  : Transport.HttpOutcome Transport.Entries * nat :=
  (if String.eqb (Transport.a_url request) "/security/authorize"
   then Transport.Answered 200
          (Transport.Values
             [Transport.Object
                {| Transport.Errors := Some ["Some key error"];
                   Transport.Warnings := None;
                   Transport.fields := [] |}])
   else Transport.Answered 200 (operationResult []),
   S w)%string.

(** [rr.doSecuredRequest('put', ...)], and a second call. *)
Definition putDefect : Transport.Call unit :=
  Transport.Put {| Transport.url := "/defect/1";
                   Transport.qs := None;
                   Transport.json := Some tt |}.

Definition deleteDefect : Transport.Call unit :=
  Transport.Del {| Transport.url := "/defect/2";
                   Transport.qs := Some [("fetch", Js.Str "Name")]%string;
                   Transport.json := None |}.

Definition putThenDelete : list (Transport.Call unit) :=
  [putDefect; deleteDefect].

(** A fresh session. *)
Definition fresh (token : Js.value) : Transport.Session unit nat :=
  {| Transport._token := token; Transport.world := O; Transport.sent := [] |}.

(** * Vocabulary of the statements *)

(** What the test of lines 357 and 472 guarantees about the envelope just
    handled, the count reached and the request that follows.  [next] is
    the sum of the start index and the requested page size as JavaScript
    takes it: the sum itself up to [2^53] in magnitude. *)
Definition Guard {A} (options : Options) (count : Z) (result : Envelope A)
    (req : Request) : Prop :=
  exists si trc next,
    StartIndex result = Js.Num si /\ si <> 0 /\
    0 < pageSize options /\
    TotalResultCount result = Js.Num trc /\ trc <> 0 /\
    Js.add si (pageSize options) = Some next /\
    (Z.abs (si + pageSize options) <= 2 ^ 53 -> next = si + pageSize options) /\
    next <= trc /\
    match limit options with
    | None => True
    | Some l => count < l
    end /\
    req = {| qs_start := next; qs_pagesize := optimalPageSize options |}.

(** The start index or the total result count is missing or not a
    number. *)
Definition malformed {A} (result : Envelope A) : Prop :=
  Js.is_number (StartIndex result) = false \/
  Js.is_number (TotalResultCount result) = false.

(** The records of a first page, cut to the limit. *)
Definition firstPageCut {A} (options : Options) (result : Envelope A) : list A :=
  let page := match Results result with Some p => p | None => [] end in
  match limit options with
  | Some l => slice0 (Z.max 0 l) page
  | None => page
  end.

(** [Math.ceil(a / b)] for positive [b] *)
Definition ceilDiv (a b : Z) : Z := (a + b - 1) / b.

(** A fetcher that always succeeds with a well-formed envelope: the start
    index asked for, the total result count [total], and a page that has
    the size asked for, or what is left of the collection [1..total] when
    that is less. *)
Definition wellFormedPager {A Err W} (get : W -> Request -> Response A Err * W)
    (total : Z) : Prop :=
  forall w req, exists env page w',
    get w req = (inr env, w') /\
    Results env = Some page /\
    StartIndex env = Js.Num (qs_start req) /\
    TotalResultCount env = Js.Num total /\
    (0 <= qs_pagesize req ->
     Z.min (qs_pagesize req) (total - qs_start req + 1) <= len page
     <= qs_pagesize req).

Section StreamVocabulary.

Import Stream.

Variables A Err W : Type.
Variable onPageCallback : W -> list A -> PageInfo -> (bool * list A) * W.

Abbreviation State := (StreamState A Err W).
Abbreviation Ev := (Event A Err).

(** Records handed to the callback according to a log. *)
Definition deliveredTotal (evs : list Ev) : Z :=
  fold_right (fun page n => len page + n) 0 (pagesOf evs).

(** Records in the pages of a log as their callbacks left them. *)
Definition countedTotal (evs : list Ev) : Z :=
  fold_right (fun page n => len page + n) 0 (leftOf evs).

(** In this entry the callback left its page with the length it had. *)
Definition keepsLength (ev : Ev) : Prop :=
  match ev with
  | Delivered page _ _ after => len after = len page
  | Fetched _ _ => True
  end.

(** No callback of the log changed the length of its page. *)
Definition lengthsKept (evs : list Ev) : Prop := Forall keepsLength evs.


(** The callback answered [false] in this entry. *)
Definition isStop (ev : Ev) : bool :=
  match ev with
  | Delivered _ _ false _ => true
  | _ => false
  end.

(** The state after the callback has been given [limited] and has left
    it as [after]. *)
Definition afterDelivery (st : State) (result : Envelope A) (limited : list A)
    (c : bool) (after : list A) (w' : W) : State :=
  {| totalProcessed := totalProcessed st + len after;
     s_world := w';
     s_events := s_events st ++
       [Delivered limited
          {| startIndex := StartIndex result;
             pi_pageSize := len limited;
             totalResultCount := TotalResultCount result;
             pi_totalProcessed := totalProcessed st + len limited |} c after] |}.

(** The decision after a delivery. *)
Definition afterDeliveryStep (options : Options) (processed : Z)
    (result : Envelope A) (c : bool) : Step StreamResult :=
  if negb c then Finish {| sr_totalProcessed := processed; completed := false |}
  else match limit options with
       | Some l =>
           if l <=? processed
           then Finish {| sr_totalProcessed := processed; completed := true |}
           else morePages options processed result
       | None => morePages options processed result
       end.

(** The callback has not answered [false] so far. *)
Definition noStop (evs : list Ev) : Prop :=
  Forall (fun ev => isStop ev = false) evs.

(** The run was stopped by the callback: its last act was a delivery
    answered [false], and it resolved as not completed. *)
Definition Stopped (st : State) (p : Promise Err StreamResult) : Prop :=
  exists pre page info after,
    s_events st = pre ++ [Delivered page info false after] /\
    noStop pre /\
    p = Resolved {| sr_totalProcessed := totalProcessed st; completed := false |} /\
    exists w0, onPageCallback w0 page info = ((false, after), s_world st).

(** The run was not stopped by the callback. *)
Definition Unstopped (st : State) (p : Promise Err StreamResult) : Prop :=
  noStop (s_events st) /\
  forall r, p = Resolved r -> completed r = true.


End StreamVocabulary.

Section BatchVocabulary.

Import Batch.

Variables A W : Type.

Abbreviation BState := (BatchState A W).
Abbreviation Call := (list A * BatchInfo * bool)%type.

Definition batchOf (c : Call) : list A := fst (fst c).
Definition infoOf (c : Call) : BatchInfo := snd (fst c).

(** Records in a list of batches. *)
Definition batchesTotal (bs : list (list A)) : Z :=
  fold_right (fun b n => len b + n) 0 bs.




End BatchVocabulary.

Section FailureVocabulary.

Variables A Err W : Type.

Abbreviation Fetch := (Request * Response A Err)%type.





End FailureVocabulary.

(** ** Vocabulary of the further properties *)

Section PagesVocabulary.

Variables A Err : Type.

(** The records of an envelope: [result.Results], or none when it is
    missing. *)
Definition pageOf (result : Envelope A) : list A :=
  match Results result with
  | Some pageResults => pageResults
  | None => []
  end.

(** The records a fetch brought: none when it was rejected. *)
Definition pageOfResponse (resp : Response A Err) : list A :=
  match resp with
  | inl _ => []
  | inr result => pageOf result
  end.

(** The pages of a fetch log, in the order fetched. *)
Definition fetchedPages (fetches : list (Request * Response A Err)) : list (list A) :=
  map (fun f => pageOfResponse (snd f)) fetches.

(** The first [l] records when a limit [l] is set (none for [l <= 0]),
    all of them otherwise. *)
Definition cutToLimit (limit : option Z) (xs : list A) : list A :=
  match limit with
  | Some l => slice0 l xs
  | None => xs
  end.

End PagesVocabulary.

(** A fetcher that never answers with an empty page: every successful
    answer carries at least one record. *)
Definition neverEmpty {A Err W} (get : W -> Request -> Response A Err * W) : Prop :=
  forall w req,
    match fst (get w req) with
    | inl _ => True
    | inr result => pageOf result <> []
    end.

(** A fetcher that answers every request with the same envelope. *)
Definition alwaysAnswers {A Err W} (get : W -> Request -> Response A Err * W)
    (result : Envelope A) : Prop :=
  forall w req, fst (get w req) = inr result.

Section StreamFurtherVocabulary.

Import Stream.

Variables A Err W : Type.

(** Every page handed to the callback came with its own size and with
    the driver's count of the pages before it plus its own size.  The
    driver counts a page by the length its callback left it with, so that
    this is the running total of the records handed over, the page
    included, as long as no callback has changed the length of its
    page. *)
Definition runningTotals (evs : list (Event A Err)) : Prop :=
  forall pre page info c after post,
    evs = pre ++ Delivered page info c after :: post ->
    pi_pageSize info = len page /\
    pi_totalProcessed info = countedTotal pre + len page /\
    (lengthsKept pre -> pi_totalProcessed info = deliveredTotal pre + len page).

(** A page callback that always continues and touches nothing. *)
Definition keepGoing (w : W) (page : list A) (_ : PageInfo) : (bool * list A) * W :=
  ((true, page), w).

(** [query] and [queryStream] ended the same way: both pending, both
    rejected with the same error, or both resolved, the stream as
    completed with [count] records. *)
Definition sameOutcome (count : Z) (q : Promise Err (Envelope A))
    (s : Promise Err StreamResult) : Prop :=
  match q, s with
  | Resolved _, Resolved sr =>
      sr = {| sr_totalProcessed := count; completed := true |}
  | Rejected e, Rejected e' => e = e'
  | Pending, Pending => True
  | _, _ => False
  end.

(** What the two page handlers decided is the same thing. *)
Definition sameStep (count : Z) (q : Step (Envelope A)) (s : Step StreamResult)
  : Prop :=
  match q, s with
  | Finish _, Finish sr => sr = {| sr_totalProcessed := count; completed := true |}
  | NextPage req, NextPage req' => req = req'
  | _, _ => False
  end.

(** The fetch of this entry was rejected. *)
Definition isFailedFetch (ev : Event A Err) : bool :=
  match ev with
  | Fetched _ (inl _) => true
  | _ => false
  end.

End StreamFurtherVocabulary.

Section BatchFurtherVocabulary.

Import Batch.

Variables A W : Type.

(** Every batch handed to the callback came with the running total of
    the records handed over in batches, itself included. *)
Definition runningBatchTotals (calls : list (list A * BatchInfo * bool)) : Prop :=
  forall pre call post,
    calls = pre ++ call :: post ->
    bi_totalProcessed (infoOf call)
    = batchesTotal (map (@batchOf A) pre) + len (batchOf call).

(** The books, whatever the batch size. *)
Definition Kept (st : BatchState A W) : Prop :=
  map (@batchOf A) (b_calls st) = batches st /\
  totalProcessed st = batchesTotal (batches st) /\
  runningBatchTotals (b_calls st).

End BatchFurtherVocabulary.

Section TransportVocabulary.

Import Transport.

Variables J R : Type.

Definition optionsOf (c : Call J) : Options J :=
  match c with
  | Get o | Post o | Put o | Del o => o
  end.

Definition methodOf (c : Call J) : string :=
  match c with
  | Get _ => "get"
  | Post _ => "post"
  | Put _ => "put"
  | Del _ => "delete"
  end.

(** The call goes through [doSecuredRequest]. *)
Definition isSecured (c : Call J) : bool :=
  match c with
  | Get _ => false
  | _ => true
  end.

(** The request of a call, sent as the caller gave it. *)
Definition plainRequest (c : Call J) : AxiosOptions J :=
  axiosOptions (methodOf c) (optionsOf c).

(** The request of a call, a secured one with the token as [qs.key]. *)
Definition keyedRequest (token : Js.value) (c : Call J) : AxiosOptions J :=
  if isSecured c
  then axiosOptions (methodOf c) (withKey token (optionsOf c))
  else plainRequest c.

(** The request of [auth]. *)
Definition authorizeRequest : AxiosOptions J :=
  axiosOptions "get" (authorizeOptions J).

Definition isRejection {X} (r : Failure + X) : bool :=
  match r with
  | inl _ => true
  | inr _ => false
  end.

(** An error as [generateError] makes them: at least one message, the
    first of which is the message of the error. *)
Definition wellFormedError (e : Failure) : Prop :=
  match e with
  | Generated message errors => errors <> [] /\ hd_error errors = Some message
  | TypeError => False
  end.

(** A result that reports no error. *)
Definition errorFree (v : Value R) : Prop :=
  match v with
  | Object o => Errors o = None \/ Errors o = Some []
  | Primitive _ => True
  end.

End TransportVocabulary.

Section RestApiVocabulary.

Import Transport RestApi.

Variables D W X : Type.
Variable getRelative : Js.value -> option string.


End RestApiVocabulary.

(** * Tactics *)

(** Boolean comparisons in the context, as propositions. *)
Ltac bools :=
  repeat match goal with
  | H : (_ <=? _) = true |- _ => apply Z.leb_le in H
  | H : (_ <=? _) = false |- _ => apply Z.leb_gt in H
  | H : (_ <? _) = true |- _ => apply Z.ltb_lt in H
  | H : (_ <? _) = false |- _ => apply Z.ltb_ge in H
  | H : (_ =? _) = true |- _ => apply Z.eqb_eq in H
  | H : (_ =? _) = false |- _ => apply Z.eqb_neq in H
  end.

(** Case analysis on every [match] scrutinee of a hypothesis. *)
Ltac cases_in H :=
  repeat match type of H with
  | context [match ?x with _ => _ end] => destruct x eqn:?
  end.

(** * Properties *)

(** ** Sums of numbers *)

Lemma add_exact (a b : Z) : Z.abs (a + b) <= 2 ^ 53 -> Js.add a b = Some (a + b).
Proof.
  intros H. unfold Js.add, Js.round.
  replace (Z.abs (a + b) <=? 2 ^ 53) with true
    by (symmetry; apply Z.leb_le; exact H).
  reflexivity.
Qed.

(** ** Lengths *)

Lemma len_nonneg {A} (xs : list A) : 0 <= len xs.
Proof. unfold len. lia. Qed.


Lemma len_app {A} (xs ys : list A) : len (xs ++ ys) = len xs + len ys.
Proof. unfold len. rewrite length_app. lia. Qed.

Lemma len_slice0 {A} (n : Z) (xs : list A) :
  0 <= n <= len xs -> len (slice0 n xs) = n.
Proof.
  unfold len, slice0. intros H.
  rewrite firstn_length_le by lia. lia.
Qed.

Lemma len_pos_nonempty {A} (xs : list A) : 0 < len xs <-> xs <> [].
Proof.
  destruct xs; unfold len; simpl; split; intros H; try lia; congruence.
Qed.

(** ** Lists that grow at the end *)

Lemma list_snoc_split {X} (xs pre post : list X) x y :
  xs ++ [x] = pre ++ y :: post ->
  (post = [] /\ pre = xs /\ y = x) \/
  (exists post', post = post' ++ [x] /\ xs = pre ++ y :: post').
Proof.
  intros E. destruct post as [|z post].
  - left. apply app_inj_tail in E. destruct E as [-> ->]. auto.
  - right. destruct (@exists_last _ (z :: post)) as (mid & t & Em); [discriminate|].
    rewrite Em in *.
    change (pre ++ y :: mid ++ [t]) with (pre ++ (y :: mid) ++ [t]) in E.
    rewrite app_assoc in E. apply app_inj_tail in E. destruct E as [-> ->].
    exists mid. auto.
Qed.

(** If all entries of a list but its last are unmarked, a marked entry
    can only be the last one. *)
Lemma first_marked_unique {X} (marked : X -> bool) (pre pre' post : list X) x x' :
  pre ++ x :: post = pre' ++ [x'] ->
  marked x = true ->
  Forall (fun y => marked y = false) pre' ->
  post = [] /\ pre = pre' /\ x = x'.
Proof.
  intros E Hm Hn. apply eq_sym in E. apply list_snoc_split in E.
  destruct E as [(-> & -> & ->) | (post' & _ & E)]; [auto|].
  rewrite E in Hn. apply Forall_app in Hn. destruct Hn as [_ Hn].
  inversion Hn; subst. congruence.
Qed.

(** ** The accumulator of [query] *)

Section QueryFacts.

Variables A Err W : Type.
Variable get : W -> Request -> Response A Err * W.

Lemma continueOrFinish_acc options (acc : list A) fetched result :
  fst (continueOrFinish options acc fetched result) = (acc, fetched).
Proof. unfold continueOrFinish. destruct fetchNext; reflexivity. Qed.

Lemma continueOrFinish_finish options (acc : list A) fetched result r :
  snd (continueOrFinish options acc fetched result) = Finish r ->
  r = finalResult options acc result.
Proof. unfold continueOrFinish. destruct fetchNext; simpl; congruence. Qed.

(** [totalFetched] is the length of [results]. *)
Lemma page_counts options (acc : list A) fetched result acc' fetched' step :
  loadRemainingPages_page options acc fetched result = ((acc', fetched'), step) ->
  len acc = fetched -> len acc' = fetched'.
Proof.
  unfold loadRemainingPages_page. intros H Hc.
  cases_in H;
  try (apply (f_equal fst) in H; rewrite continueOrFinish_acc in H);
  simpl in H; inversion H; subst; bools;
  rewrite ?len_app, ?len_slice0 by lia; lia.
Qed.

(** Whatever a page handler settles with carries the accumulator. *)
Lemma page_finish options (acc : list A) fetched result acc' fetched' r :
  loadRemainingPages_page options acc fetched result = ((acc', fetched'), Finish r) ->
  exists env, r = finalResult options acc' env.
Proof.
  unfold loadRemainingPages_page. intros H.
  cases_in H;
  try (pose proof (f_equal fst H) as H1; rewrite continueOrFinish_acc in H1;
       apply (f_equal snd) in H; apply continueOrFinish_finish in H;
       simpl in *; inversion H1; subst; eexists; reflexivity);
  inversion H; subst; eexists; reflexivity.
Qed.



(** A resolved [query] hands back exactly the accumulator. *)
Lemma loadRemainingPages_resolved options fuel st result st' r :
  loadRemainingPages get fuel options st result = (st', Resolved r) ->
  exists env, r = finalResult options (results st') env.
Proof.
  revert st result. induction fuel as [|fuel IH]; intros st result H; simpl in H;
    destruct (loadRemainingPages_page options (results st) (totalFetched st) result)
      as [[acc fetched] step] eqn:Hp;
    destruct step as [r'|req].
  - inversion H; subst. simpl. eapply page_finish; eauto.
  - inversion H.
  - inversion H; subst. simpl. eapply page_finish; eauto.
  - simpl in H. destruct (get (q_world st) req) as [resp w'].
    destruct resp as [e|next]; [inversion H|].
    apply IH in H. exact H.
Qed.


End QueryFacts.

(** ** The counter and the log of [queryStream] *)

Section StreamFacts.

Import Stream.

Variables A Err W : Type.
Variable get : W -> Request -> Response A Err * W.
Variable onPageCallback : W -> list A -> PageInfo -> (bool * list A) * W.

Abbreviation State := (StreamState A Err W).
Abbreviation Ev := (Event A Err).

Lemma pagesOf_app (xs ys : list Ev) : pagesOf (xs ++ ys) = pagesOf xs ++ pagesOf ys.
Proof.
  induction xs as [|[req resp|page info c after] xs IH]; simpl; rewrite ?IH;
    reflexivity.
Qed.

Lemma leftOf_app (xs ys : list Ev) : leftOf (xs ++ ys) = leftOf xs ++ leftOf ys.
Proof.
  induction xs as [|[req resp|page info c after] xs IH]; simpl; rewrite ?IH;
    reflexivity.
Qed.

Lemma requestsOf_app (xs ys : list Ev) :
  requestsOf (xs ++ ys) = requestsOf xs ++ requestsOf ys.
Proof.
  induction xs as [|[req resp|page info c after] xs IH]; simpl; rewrite ?IH;
    reflexivity.
Qed.

Lemma deliveredTotal_app (xs ys : list Ev) :
  deliveredTotal (xs ++ ys) = deliveredTotal xs + deliveredTotal ys.
Proof.
  unfold deliveredTotal. rewrite pagesOf_app.
  induction (pagesOf xs) as [|p ps IH]; simpl; lia.
Qed.

Lemma deliveredTotal_fetched (xs : list Ev) req resp :
  deliveredTotal (xs ++ [Fetched req resp]) = deliveredTotal xs.
Proof. rewrite deliveredTotal_app. unfold deliveredTotal. simpl. lia. Qed.

Lemma deliveredTotal_delivered (xs : list Ev) page info c after :
  deliveredTotal (xs ++ [Delivered page info c after]) = deliveredTotal xs + len page.
Proof. rewrite deliveredTotal_app. unfold deliveredTotal. simpl. lia. Qed.

Lemma countedTotal_app (xs ys : list Ev) :
  countedTotal (xs ++ ys) = countedTotal xs + countedTotal ys.
Proof.
  unfold countedTotal. rewrite leftOf_app.
  induction (leftOf xs) as [|p ps IH]; simpl; lia.
Qed.

Lemma countedTotal_fetched (xs : list Ev) req resp :
  countedTotal (xs ++ [Fetched req resp]) = countedTotal xs.
Proof. rewrite countedTotal_app. unfold countedTotal. simpl. lia. Qed.

Lemma countedTotal_delivered (xs : list Ev) page info c after :
  countedTotal (xs ++ [Delivered page info c after]) = countedTotal xs + len after.
Proof. rewrite countedTotal_app. unfold countedTotal. simpl. lia. Qed.

(** Where no callback changed the length of its page, the pages count as
    they were handed over. *)
Lemma lengthsKept_counted (evs : list Ev) :
  lengthsKept evs -> countedTotal evs = deliveredTotal evs.
Proof.
  unfold lengthsKept, countedTotal, deliveredTotal.
  induction evs as [|[req resp|page info c after] evs IH]; intros H; simpl.
  - reflexivity.
  - inversion H; subst. auto.
  - inversion H as [|? ? Hk Hrest]; subst. simpl in Hk. rewrite Hk, IH by exact Hrest.
    reflexivity.
Qed.





Lemma limitedPageResults_nonempty options processed (pageResults : list A) :
  0 < len pageResults ->
  match limit options with Some l => 0 < l - processed | None => True end ->
  0 < len (limitedPageResults options processed pageResults).
Proof.
  intros Hp Hl. unfold limitedPageResults.
  destruct (limit options) as [l|]; [|exact Hp]. simpl.
  destruct (l - processed <? len pageResults) eqn:E; bools.
  - rewrite len_slice0; lia.
  - lia.
Qed.

(** A page handler either leaves the state alone, or calls the callback
    exactly once, on a non-empty page that fits the limit, and counts
    the page as the callback left it. *)
Lemma processPages_page_cases options (st : State) result st' step :
  processPages_page onPageCallback options st result = (st', step) ->
  (st' = st /\
   (step = Finish {| sr_totalProcessed := totalProcessed st; completed := true |} \/
    step = morePages options (totalProcessed st) result))
  \/
  (exists pageResults c after w',
      Results result = Some pageResults /\
      0 < len pageResults /\
      match limit options with
      | Some l => 0 < l - totalProcessed st
      | None => True
      end /\
      let limited := limitedPageResults options (totalProcessed st) pageResults in
      onPageCallback (s_world st) limited
        {| startIndex := StartIndex result;
           pi_pageSize := len limited;
           totalResultCount := TotalResultCount result;
           pi_totalProcessed := totalProcessed st + len limited |}
      = ((c, after), w') /\
      st' = afterDelivery st result limited c after w' /\
      step = afterDeliveryStep options (totalProcessed st + len after) result c).
Proof.
  unfold processPages_page. intros H.
  destruct (Results result) as [pageResults|] eqn:HR;
    [|inversion H; subst; left; auto].
  destruct (0 <? len pageResults) eqn:Hpos;
    [|inversion H; subst; left; auto].
  bools.
  assert (Hdel : forall limited,
             deliverPage onPageCallback options st result limited = (st', step) ->
             exists c after w',
               onPageCallback (s_world st) limited
                 {| startIndex := StartIndex result;
                    pi_pageSize := len limited;
                    totalResultCount := TotalResultCount result;
                    pi_totalProcessed := totalProcessed st + len limited |}
               = ((c, after), w') /\
               st' = afterDelivery st result limited c after w' /\
               step = afterDeliveryStep options (totalProcessed st + len after)
                        result c).
  { intros limited Hd. unfold deliverPage in Hd.
    destruct (onPageCallback _ _ _) as [[c after] w'] eqn:Hcb.
    exists c, after, w'. split; [reflexivity|].
    unfold afterDelivery, afterDeliveryStep.
    destruct c; simpl in Hd.
    - destruct (limit options) as [l|];
        [destruct (l <=? _)|]; inversion Hd; subst; auto.
    - inversion Hd; subst; auto. }
  destruct (limit options) as [l|] eqn:Hl.
  - destruct (l - totalProcessed st <=? 0) eqn:Hrem; bools.
    + inversion H; subst; left; auto.
    + right. apply Hdel in H. destruct H as (c & after & w' & Hcb & Hst & Hstep).
      exists pageResults, c, after, w'. repeat split; auto; lia.
  - right. apply Hdel in H. destruct H as (c & after & w' & Hcb & Hst & Hstep).
    exists pageResults, c, after, w'. repeat split; auto.
Qed.

(** Invariants of the state carry through the whole chain. *)
Lemma processPages_invariant (P : State -> Prop) options :
  (forall st result st' step,
      processPages_page onPageCallback options st result = (st', step) ->
      P st -> P st') ->
  (forall st req resp w',
      get (s_world st) req = (resp, w') -> P st ->
      P {| totalProcessed := totalProcessed st; s_world := w';
           s_events := s_events st ++ [Fetched req resp] |}) ->
  forall fuel st result st' p,
    processPages get onPageCallback fuel options st result = (st', p) ->
    P st -> P st'.
Proof.
  intros Hpage Hget. induction fuel as [|fuel IH]; intros st result st' p H HP;
    simpl in H;
    destruct (processPages_page onPageCallback options st result) as [st1 step] eqn:Hp;
    pose proof (Hpage _ _ _ _ Hp HP) as HP1;
    destruct step as [r|req]; try (inversion H; subst; exact HP1).
  destruct (get (s_world st1) req) as [resp w'] eqn:Hg.
  pose proof (Hget _ _ _ _ Hg HP1) as HP2.
  destruct resp as [e|next].
  - inversion H; subst; exact HP2.
  - eapply IH; eauto.
Qed.

(** [totalProcessed] counts the pages handed to the callback as the
    callback left them. *)
Lemma processPages_counts options fuel (st : State) result st' p :
  processPages get onPageCallback fuel options st result = (st', p) ->
  totalProcessed st = countedTotal (s_events st) ->
  totalProcessed st' = countedTotal (s_events st').
Proof.
  apply (@processPages_invariant
           (fun s => totalProcessed s = countedTotal (s_events s))).
  - intros s result0 s' step Hp HP.
    apply processPages_page_cases in Hp.
    destruct Hp as [[-> _] | (pr & c & after & w' & _ & _ & _ & _ & -> & _)];
      [exact HP|].
    unfold afterDelivery; simpl. rewrite countedTotal_delivered. lia.
  - intros s req resp w' _ HP. simpl. rewrite countedTotal_fetched. exact HP.
Qed.



(** What the stream resolves with is read off the final state. *)
Lemma morePages_finish options processed (result : Envelope A) r :
  morePages options processed result = Finish r ->
  r = {| sr_totalProcessed := processed; completed := true |}.
Proof. unfold morePages. destruct fetchNext; congruence. Qed.

Lemma processPages_page_finish options (st : State) result st' r :
  processPages_page onPageCallback options st result = (st', Finish r) ->
  sr_totalProcessed r = totalProcessed st'.
Proof.
  intros Hp. apply processPages_page_cases in Hp.
  destruct Hp as [[-> [H|H]] | (pr & c & after & w' & _ & _ & _ & _ & -> & H)].
  - inversion H; reflexivity.
  - symmetry in H. apply morePages_finish in H. subst; reflexivity.
  - unfold afterDeliveryStep in H. simpl.
    destruct c; simpl in H.
    + destruct (limit options) as [l|]; [destruct (l <=? _)|];
        try (inversion H; reflexivity);
        symmetry in H; apply morePages_finish in H; subst; reflexivity.
    + inversion H; reflexivity.
Qed.





(** A relation between the counter and the world that fetches keep and
    deliveries advance holds at the end of every run. *)
Lemma queryStream_world_invariant (Q : Z -> W -> Prop) fuel raw w st p :
  (forall n w0 req resp w', get w0 req = (resp, w') -> Q n w0 -> Q n w') ->
  (forall n w0 page info c after w',
      onPageCallback w0 page info = ((c, after), w') -> 0 < len page ->
      Q n w0 -> Q (n + len after) w') ->
  queryStream get onPageCallback fuel raw w = (st, p) ->
  Q 0 w -> Q (totalProcessed st) (s_world st).
Proof.
  intros Hget Hcb H HQ. unfold queryStream in H.
  destruct (get w (requestOptions (mergeDefaults raw))) as [resp w'] eqn:Hg.
  pose proof (Hget _ _ _ _ _ Hg HQ) as HQ'.
  destruct resp as [e|result].
  - inversion H; subst; exact HQ'.
  - refine (@processPages_invariant
              (fun s => Q (totalProcessed s) (s_world s)) _ _ _ _ _ _ _ _ H HQ').
    + intros s result0 s' step Hp HP.
      apply processPages_page_cases in Hp.
      destruct Hp
        as [[-> _] | (pr & c & after & w1 & _ & Hpos & Hrem & Hcall & -> & _)];
        [exact HP|].
      unfold afterDelivery; simpl.
      eapply Hcb; [exact Hcall| |exact HP].
      apply limitedPageResults_nonempty; assumption.
    + intros s req resp w1 Hg1 HP. simpl. eapply Hget; eauto.
Qed.

End StreamFacts.

(** ** The batches of [queryBatch] *)

Section BatchFacts.

Import Batch.

Variables A Err W : Type.
Variable get : W -> Request -> Response A Err * W.
Variable onBatchCallback : W -> list A -> BatchInfo -> bool * W.

Abbreviation BState := (BatchState A W).
Abbreviation Call := (list A * BatchInfo * bool)%type.

(** The page callback of [queryBatch] answers as its loop does, and
    leaves its page as it found it. *)
Lemma pageCallback_answer batchSize (st : BState) page info c after st' :
  pageCallback onBatchCallback batchSize st page info = ((c, after), st') ->
  onPage onBatchCallback batchSize st page info = (c, st') /\ after = page.
Proof.
  unfold pageCallback.
  destruct (onPage onBatchCallback batchSize st page info) as [c0 st0].
  intros H. inversion H; subst. auto.
Qed.


Lemma batchesTotal_app (xs ys : list (list A)) :
  batchesTotal (xs ++ ys) = batchesTotal xs + batchesTotal ys.
Proof. unfold batchesTotal. induction xs as [|x xs IH]; simpl; lia. Qed.


(** Handing over a batch keeps the books, whatever the batch. *)
Lemma emitBatch_calls trc (st : BState) batch c st' :
  emitBatch onBatchCallback trc st batch = (c, st') ->
  exists info,
    b_calls st' = b_calls st ++ [(batch, info, c)] /\
    batchNumber info = len (batches st) + 1 /\
    bi_batchSize info = len batch /\
    bi_totalProcessed info = totalProcessed st + len batch /\
    totalResultCount info = trc /\
    batches st' = batches st ++ [batch] /\
    currentBatch st' = [] /\
    totalProcessed st' = totalProcessed st + len batch.
Proof.
  unfold emitBatch. intros H.
  destruct (onBatchCallback _ _ _) as [c0 w'].
  inversion H; subst; simpl. eexists. repeat split.
Qed.







End BatchFacts.

(** The batch closure never holds more records than the stream handed
    to its page callback, whatever the batch size. *)
Section BatchCounts.

Import Batch.

Variables A Err W : Type.
Variable get : W -> Request -> Response A Err * W.
Variable onBatchCallback : W -> list A -> BatchInfo -> bool * W.



(** What the [then] handler returns and leaves behind. *)
Lemma flush_result (st : BatchState A W) streamResult st' r :
  flush onBatchCallback st streamResult = (st', r) ->
  br_totalProcessed r = totalProcessed st + len (currentBatch st) /\
  totalBatches r = len (batches st) + (if 0 <? len (currentBatch st) then 1 else 0) /\
  completed r = Stream.completed streamResult /\
  totalProcessed st' = br_totalProcessed r /\
  len (batches st') = totalBatches r.
Proof.
  unfold flush. intros H. inversion H; subst; clear H. simpl.
  destruct (0 <? len (currentBatch st)) eqn:E; bools.
  - destruct (emitBatch onBatchCallback
                (Js.Num (Stream.sr_totalProcessed streamResult)) st
                (currentBatch st)) as [c st1] eqn:He.
    apply emitBatch_calls in He.
    destruct He as (info & _ & _ & _ & _ & _ & Hbs & _ & Htp).
    simpl. rewrite Htp, Hbs, len_app. repeat split; reflexivity.
  - pose proof (len_nonneg (currentBatch st)).
    repeat split; try reflexivity; lia.
Qed.


End BatchCounts.

(** * The claims *)

(** ** C1 *)




(** ** C2 *)

Lemma fetchNext_guard {A} options count (result : Envelope A) :
  fetchNext options count result = true ->
  Guard options count result (nextPageOptions options result).
Proof.
  unfold fetchNext, isValidPagination, hasMoreData, nextPageOptions, nextStart,
    withinLimit, Guard.
  intros H.
  repeat (apply andb_prop in H; let H' := fresh in destruct H as [H H']).
  destruct (StartIndex result) as [| |b|si|s]; try discriminate.
  destruct (TotalResultCount result) as [| |b|trc|s]; try discriminate.
  destruct (Js.add si (pageSize options)) as [next|] eqn:Hsum; try discriminate.
  simpl in *.
  exists si, trc, next.
  repeat match goal with
  | Hn : negb _ = true |- _ => apply negb_true_iff in Hn
  end; bools.
  repeat split; auto.
  - intros Hsafe. rewrite (add_exact _ _ Hsafe) in Hsum. congruence.
  - destruct (limit options); [bools; lia | exact I].
Qed.

Lemma malformed_stops {A} options count (result : Envelope A) :
  malformed result -> fetchNext options count result = false.
Proof.
  intros Hm. destruct (fetchNext options count result) eqn:E; [|reflexivity].
  apply fetchNext_guard in E.
  destruct E as (si & trc & next & Hsi & _ & _ & Htrc & _).
  destruct Hm as [Hm|Hm]; [rewrite Hsi in Hm | rewrite Htrc in Hm]; discriminate.
Qed.

Lemma slice0_all {A} (n : Z) (xs : list A) : len xs <= n -> slice0 n xs = xs.
Proof. unfold slice0, len. intros H. apply firstn_all2. lia. Qed.

Section GuardFacts.

Variables A Err W : Type.
Variable get : W -> Request -> Response A Err * W.
Variable onPageCallback : W -> list A -> Stream.PageInfo -> (bool * list A) * W.

Lemma continueOrFinish_next options (acc : list A) fetched result acc' fetched' req :
  continueOrFinish options acc fetched result = ((acc', fetched'), NextPage req) ->
  fetchNext options fetched' result = true /\ req = nextPageOptions options result.
Proof.
  unfold continueOrFinish. destruct (fetchNext options fetched result) eqn:E;
    intros H; inversion H; subst; auto.
Qed.

(** [query] asks for a further page only under the guard. *)
Lemma loadRemainingPages_page_next options (acc : list A) fetched result
    acc' fetched' req :
  loadRemainingPages_page options acc fetched result = ((acc', fetched'), NextPage req) ->
  Guard options fetched' result req.
Proof.
  unfold loadRemainingPages_page. intros H.
  cases_in H; try discriminate;
    apply continueOrFinish_next in H; destruct H as [H ->];
    apply fetchNext_guard; exact H.
Qed.

Lemma morePages_next options processed (result : Envelope A) req :
  Stream.morePages options processed result = NextPage req ->
  fetchNext options processed result = true /\ req = nextPageOptions options result.
Proof.
  unfold Stream.morePages. destruct (fetchNext options processed result);
    intros H; inversion H; auto.
Qed.

(** [queryStream] asks for a further page only under the guard. *)
Lemma processPages_page_next options (st : Stream.StreamState A Err W) result st' req :
  Stream.processPages_page onPageCallback options st result = (st', NextPage req) ->
  Guard options (Stream.totalProcessed st') result req.
Proof.
  intros H. apply processPages_page_cases in H.
  destruct H as [[-> [H|H]] | (pr & c & after & w' & _ & _ & _ & _ & -> & H)].
  - discriminate.
  - symmetry in H. apply morePages_next in H. destruct H as [H ->].
    apply fetchNext_guard; exact H.
  - unfold afterDeliveryStep in H. simpl.
    destruct c; simpl in H; [|discriminate].
    destruct (limit options) as [l|] eqn:Hl;
      [destruct (l <=? _); [discriminate|]|];
      symmetry in H; apply morePages_next in H; destruct H as [H ->];
      apply fetchNext_guard; exact H.
Qed.

(** After a malformed envelope [query] settles at once, with what it has
    accumulated. *)
Lemma loadRemainingPages_malformed options fuel (st : QueryState A Err W) result :
  malformed result ->
  exists st' r,
    loadRemainingPages get fuel options st result = (st', Resolved r) /\
    q_fetches st' = q_fetches st /\
    Results r = Some (results st') /\
    (results st', totalFetched st') =
      fst (loadRemainingPages_page options (results st) (totalFetched st) result).
Proof.
  intros Hm.
  destruct (loadRemainingPages_page options (results st) (totalFetched st) result)
    as [[acc fetched] step] eqn:Hp.
  destruct step as [r|req].
  - exists {| results := acc; totalFetched := fetched;
              q_world := q_world st; q_fetches := q_fetches st |}, r.
    split; [destruct fuel; simpl; rewrite Hp; reflexivity|].
    split; [reflexivity|]. split; [|reflexivity].
    apply page_finish in Hp. destruct Hp as [env ->]. reflexivity.
  - apply loadRemainingPages_page_next in Hp.
    destruct Hp as (si & trc & next & Hsi & _ & _ & Htrc & _).
    destruct Hm as [Hm|Hm]; [rewrite Hsi in Hm | rewrite Htrc in Hm]; discriminate.
Qed.

(** What [query] has accumulated after its first page. *)
Lemma first_page_cut options (result : Envelope A) acc fetched step :
  loadRemainingPages_page options [] 0 result = ((acc, fetched), step) ->
  acc = firstPageCut options result.
Proof.
  unfold loadRemainingPages_page, firstPageCut. intros H.
  apply (f_equal fst) in H.
  assert (Hnil : forall n, slice0 n (@nil A) = []).
  { intros n. unfold slice0. apply firstn_nil. }
  destruct (Results result) as [page|].
  - destruct (0 <? len page) eqn:Hpos; bools.
    + destruct (limit options) as [l|].
      * rewrite Z.sub_0_r in H.
        destruct (l <=? 0) eqn:Hl0; bools.
        -- simpl in H. inversion H. rewrite Z.max_l by lia. reflexivity.
        -- rewrite Z.max_r by lia.
           destruct (l <? len page) eqn:Hlt; bools.
           ++ simpl in H. inversion H. reflexivity.
           ++ rewrite continueOrFinish_acc in H. inversion H; subst.
              simpl. symmetry. apply slice0_all. exact Hlt.
      * rewrite continueOrFinish_acc in H. inversion H. reflexivity.
    + assert (page = []) as ->.
      { destruct page; [reflexivity|]. unfold len in Hpos. simpl in Hpos. lia. }
      rewrite continueOrFinish_acc in H. inversion H.
      destruct (limit options); rewrite ?Hnil; reflexivity.
  - rewrite continueOrFinish_acc in H. inversion H.
    destruct (limit options); rewrite ?Hnil; reflexivity.
Qed.

(** After a malformed envelope [queryStream] settles at once. *)
Lemma processPages_malformed options fuel (st : Stream.StreamState A Err W) result :
  malformed result ->
  exists st' r,
    Stream.processPages get onPageCallback fuel options st result = (st', Resolved r) /\
    Stream.requestsOf (Stream.s_events st') = Stream.requestsOf (Stream.s_events st) /\
    Stream.sr_totalProcessed r = Stream.totalProcessed st'.
Proof.
  intros Hm.
  destruct (Stream.processPages_page onPageCallback options st result)
    as [st1 step] eqn:Hp.
  destruct step as [r|req].
  - exists st1, r.
    split; [destruct fuel; simpl; rewrite Hp; reflexivity|].
    split; [|eapply processPages_page_finish; eauto].
    apply processPages_page_cases in Hp.
    destruct Hp as [[-> _] | (pr & c & after & w' & _ & _ & _ & _ & -> & _)];
      [reflexivity|].
    unfold afterDelivery; simpl. rewrite requestsOf_app. simpl.
    rewrite app_nil_r. reflexivity.
  - apply processPages_page_next in Hp.
    destruct Hp as (si & trc & next & Hsi & _ & _ & Htrc & _).
    destruct Hm as [Hm|Hm]; [rewrite Hsi in Hm | rewrite Htrc in Hm]; discriminate.
Qed.

End GuardFacts.

(** C2, as stated, fails: the start index of the first envelope is -5,
    which is not a positive number, and both [query] and [queryStream] go
    on to fetch a next page (at start -5 + 10 = 5) and resolve with the
    records of both pages. *)
Lemma negative_start_fetches_next_page :
  let raw := Stub.options (Some 10) None in
  let get := @Stub.onCall unit [inr negativeStart; inr lastPage]
               (inl "not scripted"%string) in
  let q := query get 5 raw (O, tt) in
  let s := Stream.queryStream get Stub.alwaysOn 5 raw (O, tt) in
  ~ (exists si, StartIndex negativeStart = Js.Num si /\ 0 < si) /\
  q_fetches (fst q) =
    [ ({| qs_start := 1; qs_pagesize := 10 |}, inr negativeStart);
      ({| qs_start := 5; qs_pagesize := 10 |}, inr lastPage) ] /\
  snd q = Resolved {| Results := Some [1; 2]; StartIndex := Js.Num 1;
                      PageSize := Js.Num 2; TotalResultCount := Js.Num 100 |} /\
  Stream.requestsOf (Stream.s_events (fst s)) =
    [ {| qs_start := 1; qs_pagesize := 10 |};
      {| qs_start := 5; qs_pagesize := 10 |} ] /\
  snd s = Resolved {| Stream.sr_totalProcessed := 2; Stream.completed := true |}.
Proof.
  split; [|repeat split].
  intros (si & E & Hpos). inversion E. lia.
Qed.

(** C2, amended.  In every pagination step of [query] and [queryStream] a
    next page is requested only if the start index of the envelope is a
    non-zero number, the requested page size is positive, the total result
    count is a (non-zero) number, start index + requested page size <=
    total result count, and no limit is set or the count reached is below
    it; the request then starts at start index + requested page size.  The
    sum is the one JavaScript takes, of doubles: it is the sum of the
    integers as long as that is at most [2^53] in magnitude, and the
    double nearest to it beyond.  An
    envelope whose start index or total result count is missing or not a
    number settles the chain at once, resolved, with no further fetch,
    and [query] returns what it has accumulated; when the first response
    is such an envelope exactly one request is issued. *)
Theorem next_page_guard
    (A Err W : Type) (get : W -> Request -> Response A Err * W)
    (onPageCallback : W -> list A -> Stream.PageInfo -> (bool * list A) * W)
    (raw : RawOptions) :
  let options := mergeDefaults raw in
  (forall (acc : list A) fetched (result : Envelope A) acc' fetched' req,
      loadRemainingPages_page options acc fetched result
        = ((acc', fetched'), NextPage req) ->
      Guard options fetched' result req) /\
  (forall (st : Stream.StreamState A Err W) (result : Envelope A) st' req,
      Stream.processPages_page onPageCallback options st result
        = (st', NextPage req) ->
      Guard options (Stream.totalProcessed st') result req) /\
  (forall fuel (st : QueryState A Err W) result,
      malformed result ->
      exists st' r,
        loadRemainingPages get fuel options st result = (st', Resolved r) /\
        q_fetches st' = q_fetches st /\
        Results r = Some (results st')) /\
  (forall fuel (st : Stream.StreamState A Err W) result,
      malformed result ->
      exists st' r,
        Stream.processPages get onPageCallback fuel options st result
          = (st', Resolved r) /\
        Stream.requestsOf (Stream.s_events st')
          = Stream.requestsOf (Stream.s_events st) /\
        Stream.sr_totalProcessed r = Stream.totalProcessed st') /\
  (forall fuel w env w',
      get w (requestOptions options) = (inr env, w') ->
      malformed env ->
      (exists st r,
          query get fuel raw w = (st, Resolved r) /\
          q_fetches st = [(requestOptions options, inr env)] /\
          Results r = Some (firstPageCut options env)) /\
      (exists st r,
          Stream.queryStream get onPageCallback fuel raw w = (st, Resolved r) /\
          Stream.requestsOf (Stream.s_events st) = [requestOptions options])).
Proof.
  intros options. split; [|split; [|split; [|split]]].
  - intros. eapply loadRemainingPages_page_next; eauto.
  - intros. eapply processPages_page_next; eauto.
  - intros fuel st result Hm.
    destruct (@loadRemainingPages_malformed _ _ _ get options fuel st result Hm)
      as (st' & r & Hrun & Hf & Hr & _).
    exists st', r. auto.
  - intros. apply processPages_malformed; assumption.
  - intros fuel w env w' Hg Hm. split.
    + unfold query. fold options. rewrite Hg.
      set (st0 := {| results := []; totalFetched := 0; q_world := w';
                     q_fetches := [(requestOptions options, inr env)] |}
                  : QueryState A Err W).
      destruct (@loadRemainingPages_malformed _ _ _ get options fuel st0 env Hm)
        as (st' & r & Hrun & Hf & Hr & Hacc).
      exists st', r. split; [exact Hrun|]. split; [exact Hf|].
      rewrite Hr. f_equal. simpl in Hacc.
      destruct (loadRemainingPages_page options [] 0 env)
        as [[acc fetched] step] eqn:Hp.
      apply first_page_cut in Hp. simpl in Hacc. congruence.
    + unfold Stream.queryStream. fold options. rewrite Hg.
      set (st0 := {| Stream.totalProcessed := 0; Stream.s_world := w';
                     Stream.s_events :=
                       [Stream.Fetched (requestOptions options) (inr env)] |}
                  : Stream.StreamState A Err W).
      destruct (@processPages_malformed _ _ _ get onPageCallback options fuel
                  st0 env Hm) as (st' & r & Hrun & Hf & _).
      exists st', r. split; [exact Hrun|]. exact Hf.
Qed.

(** The test [should handle invalid pagination parameters safely]: one
    fetch, and the run resolves with the one record of the page. *)
Lemma next_page_guard_witness :
  let raw := Stub.options None (Some 10) in
  let get := @Stub.returns unit invalidPagination in
  malformed invalidPagination /\
  (exists st r,
      query get 3 raw (O, tt) = (st, Resolved r) /\
      q_fetches st = [({| qs_start := 1; qs_pagesize := 10 |}, inr invalidPagination)] /\
      Results r = Some [1]) /\
  (exists st r,
      Stream.queryStream get Stub.alwaysOn 3 raw (O, tt) = (st, Resolved r) /\
      Stream.requestsOf (Stream.s_events st) = [{| qs_start := 1; qs_pagesize := 10 |}]).
Proof.
  intros raw get.
  assert (Hm : malformed invalidPagination) by (left; reflexivity).
  split; [exact Hm|].
  exact (proj2 (proj2 (proj2 (proj2
           (@next_page_guard Z string (Stub.World unit) get Stub.alwaysOn raw))))
           3%nat (O, tt) invalidPagination (1%nat, tt) eq_refl Hm).
Defined.

(** ** C3 *)

Lemma ceilDiv_unique (a b j : Z) :
  0 < b -> (j - 1) * b < a -> a <= j * b -> ceilDiv a b = j.
Proof.
  intros Hb Hlo Hhi. unfold ceilDiv. symmetry.
  apply Z.div_unique with (r := a + b - 1 - b * j). lia. lia.
Qed.

Lemma ceilDiv_lower (a b j : Z) :
  0 < b -> j * b < a -> j + 1 <= ceilDiv a b.
Proof.
  intros Hb Hlo. unfold ceilDiv.
  apply Z.div_le_lower_bound; lia.
Qed.

Lemma ceilDiv_exact (a b : Z) :
  0 < b -> a mod b = 0 -> ceilDiv a b = a / b.
Proof.
  intros Hb Hm. unfold ceilDiv.
  pose proof (Z.div_mod a b ltac:(lia)) as E. rewrite Hm in E.
  symmetry. apply Z.div_unique with (r := b - 1); lia.
Qed.

Lemma fetchNext_at_limit {A} options l count (result : Envelope A) :
  limit options = Some l -> l <= count -> fetchNext options count result = false.
Proof.
  intros Hl Hc. unfold fetchNext, withinLimit. rewrite Hl.
  replace (count <? l) with false by (symmetry; apply Z.ltb_ge; lia).
  apply andb_false_r.
Qed.

Lemma fetchNext_more {A} options count (result : Envelope A) si trc :
  StartIndex result = Js.Num si -> si <> 0 ->
  0 < pageSize options ->
  TotalResultCount result = Js.Num trc -> trc <> 0 ->
  si + pageSize options <= trc ->
  Z.abs (si + pageSize options) <= 2 ^ 53 ->
  match limit options with None => True | Some l => count < l end ->
  fetchNext options count result = true /\
  nextPageOptions options result =
    {| qs_start := si + pageSize options; qs_pagesize := optimalPageSize options |}.
Proof.
  intros Hsi Hs0 Hps Htrc Ht0 Hmore Hsafe Hlim.
  unfold fetchNext, isValidPagination, hasMoreData, nextPageOptions, nextStart,
    withinLimit.
  rewrite Hsi, Htrc, (add_exact _ _ Hsafe). simpl.
  replace (si =? 0) with false by (symmetry; apply Z.eqb_neq; lia).
  replace (trc =? 0) with false by (symmetry; apply Z.eqb_neq; lia).
  replace (pageSize options =? 0) with false by (symmetry; apply Z.eqb_neq; lia).
  replace (0 <? pageSize options) with true by (symmetry; apply Z.ltb_lt; lia).
  replace (si + pageSize options <=? trc) with true
    by (symmetry; apply Z.leb_le; lia).
  split; [|reflexivity]. simpl.
  destruct (limit options); [apply Z.ltb_lt; lia | reflexivity].
Qed.

Section ExactLimit.

Variables A Err W : Type.
Variable get : W -> Request -> Response A Err * W.
Variable options : Options.
Variables l total : Z.

Hypothesis Hlimit : limit options = Some l.
Hypothesis Hl : 0 < l.
Hypothesis Hps : 0 < pageSize options.
Hypothesis Hstart : 1 <= start options.
Hypothesis Havail : l < total - start options + 1.
Hypothesis Hsafe : total <= 2 ^ 53.
Hypothesis Hget : wellFormedPager get total.

Lemma optimalPageSize_min : optimalPageSize options = Z.min (pageSize options) l.
Proof.
  unfold optimalPageSize. rewrite Hlimit.
  replace (0 <? l) with true by (symmetry; apply Z.ltb_lt; lia). reflexivity.
Qed.

(** A non-empty page, below the limit: either cut and settled, or
    appended whole. *)
Lemma page_below_limit (acc : list A) fetched env page :
  Results env = Some page -> 0 < len page -> fetched < l ->
  loadRemainingPages_page options acc fetched env =
    if l - fetched <? len page
    then ((acc ++ slice0 (l - fetched) page, fetched + (l - fetched)),
          Finish (finalResult options (acc ++ slice0 (l - fetched) page) env))
    else continueOrFinish options (acc ++ page) (fetched + len page) env.
Proof.
  intros HR Hpos Hf. unfold loadRemainingPages_page. rewrite HR, Hlimit.
  replace (0 <? len page) with true by (symmetry; apply Z.ltb_lt; lia).
  replace (l - fetched <=? 0) with false by (symmetry; apply Z.leb_gt; lia).
  reflexivity.
Qed.

(** A page handler that settles, settles the chain. *)
Lemma loadRemainingPages_settles fuel (st : QueryState A Err W) env acc fetched r :
  loadRemainingPages_page options (results st) (totalFetched st) env
    = ((acc, fetched), Finish r) ->
  loadRemainingPages get fuel options st env =
    ({| results := acc; totalFetched := fetched;
        q_world := q_world st; q_fetches := q_fetches st |}, Resolved r).
Proof. intros H. destruct fuel; simpl; rewrite H; reflexivity. Qed.

(** The chain from the [j]-th page on, all earlier pages having been
    full. *)
Lemma exact_limit_chain fuel :
  forall j (st : QueryState A Err W) env page,
    1 <= j ->
    totalFetched st = (j - 1) * pageSize options ->
    len (results st) = totalFetched st ->
    totalFetched st < l ->
    len (q_fetches st) = j ->
    Results env = Some page ->
    StartIndex env = Js.Num (start options + (j - 1) * pageSize options) ->
    TotalResultCount env = Js.Num total ->
    Z.min (optimalPageSize options)
          (total - (start options + (j - 1) * pageSize options) + 1)
      <= len page <= optimalPageSize options ->
    ceilDiv l (pageSize options) - j <= Z.of_nat fuel ->
    exists st' r,
      loadRemainingPages get fuel options st env = (st', Resolved r) /\
      Results r = Some (results st') /\
      len (results st') = l /\
      len (q_fetches st') = ceilDiv l (pageSize options).
Proof.
  induction fuel as [|fuel IH];
    intros j st env page Hj Hf Hacc Hlt Hn HR HS HT Hpage Hfuel;
    rewrite optimalPageSize_min in Hpage;
    assert (Hpos : 0 < len page) by lia;
    pose proof (@page_below_limit (results st) (totalFetched st) env page HR Hpos Hlt)
      as Hstep;
    destruct (l - totalFetched st <? len page) eqn:Hcut; bools.
  1, 3: (* the page is cut: this is the last fetch *)
    rewrite (loadRemainingPages_settles _ _ _ Hstep);
    eexists; eexists; (split; [reflexivity|]); simpl;
    (split; [reflexivity|]);
    rewrite len_app, len_slice0 by lia;
    (split; [lia|]); rewrite Hn; symmetry; apply ceilDiv_unique; nia.
  - (* out of fuel: the page must have been the last one *)
    assert (Hlast : ceilDiv l (pageSize options) = j).
    { pose proof (@ceilDiv_lower l (pageSize options) j Hps).
      destruct (Z_lt_le_dec (j * pageSize options) l); [lia|].
      apply ceilDiv_unique; lia. }
    assert (Hfull : totalFetched st + len page = l).
    { pose proof (@ceilDiv_lower l (pageSize options) j Hps). nia. }
    unfold continueOrFinish in Hstep.
    rewrite (@fetchNext_at_limit _ options l) in Hstep by (auto; lia).
    rewrite (loadRemainingPages_settles _ _ _ Hstep).
    eexists; eexists. split; [reflexivity|]. simpl.
    split; [reflexivity|].
    rewrite len_app. split; [lia|]. rewrite Hn, Hlast. reflexivity.
  - destruct (Z_lt_le_dec (totalFetched st + len page) l) as [Hmore|Hdone].
    + (* a full page, and more to fetch *)
      assert (Hlen : len page = pageSize options) by nia.
      set (s := start options + (j - 1) * pageSize options) in *.
      assert (Hsum : s + pageSize options <= total) by (unfold s; nia).
      destruct (@fetchNext_more _ options (totalFetched st + len page) env s total)
        as [Hnext Hreq]; auto; try lia.
      { unfold s in *. nia. }
      { rewrite Hlimit. exact Hmore. }
      unfold continueOrFinish in Hstep. rewrite Hnext, Hreq in Hstep.
      destruct (Hget (q_world st)
                  {| qs_start := s + pageSize options;
                     qs_pagesize := optimalPageSize options |})
        as (env' & page' & w' & Hg & HR' & HS' & HT' & Hpage').
      simpl in HS', Hpage'.
      specialize (Hpage' ltac:(rewrite optimalPageSize_min; lia)).
      simpl. rewrite Hstep. simpl. rewrite Hg.
      pose proof (@ceilDiv_lower l (pageSize options) j Hps ltac:(nia)) as Hlow.
      apply (IH (j + 1)
               {| results := results st ++ page;
                  totalFetched := totalFetched st + len page;
                  q_world := w';
                  q_fetches := q_fetches st ++
                    [({| qs_start := s + pageSize options;
                         qs_pagesize := optimalPageSize options |},
                      inr env')] |} env' page'); simpl; auto; try lia.
      * rewrite len_app. lia.
      * rewrite len_app, Hn. reflexivity.
      * rewrite HS'. f_equal. unfold s. lia.
    + (* the page completes the limit *)
      assert (Hfull : totalFetched st + len page = l) by lia.
      unfold continueOrFinish in Hstep.
      rewrite (@fetchNext_at_limit _ options l) in Hstep by (auto; lia).
      rewrite (loadRemainingPages_settles _ _ _ Hstep).
      eexists; eexists. split; [reflexivity|]. simpl.
      split; [reflexivity|].
      rewrite len_app. split; [lia|]. rewrite Hn.
      symmetry; apply ceilDiv_unique; nia.
Qed.

End ExactLimit.

Lemma len_ids (start count : Z) : 0 <= count -> len (Stub.ids start count) = count.
Proof.
  intros H. unfold len, Stub.ids. rewrite length_map, length_seq. lia.
Qed.

Lemma pagedServer_wellFormed {S} (total : Z) :
  wellFormedPager (@Stub.pagedServer S total) total.
Proof.
  intros w req. unfold Stub.pagedServer.
  eexists; eexists; eexists. split; [reflexivity|]. simpl.
  split; [reflexivity|]. split; [reflexivity|]. split; [reflexivity|].
  intros Hp. rewrite len_ids by lia. lia.
Qed.

(** C3, as stated, fails where the start indexes are past [2^53]: from
    start index [2^53 + 2] with page size 3 the sums
    [StartIndex + pageSize] are rounded to the doubles [2^53 + 4],
    [2^53 + 8], [2^53 + 12], ..., four apart, and against a well-formed
    server that holds the records up to [2^53 + 26], 25 from the start
    index on, a [query] with limit 24 resolves after 7 fetches with 21
    records, where the claim has 8 fetches and 24 records: after the
    seventh page the next start index, [2^53 + 28], is past the total. *)
Lemma far_start_stops_short :
  let total := 2 ^ 53 + 26 in
  let get := @Stub.pagedServer unit total in
  let run := query get 10 farStart (O, tt) in
  (raw_limit farStart = Some 24 /\
   0 < pageSize (mergeDefaults farStart) /\
   1 <= start (mergeDefaults farStart) /\
   24 < total - start (mergeDefaults farStart) + 1 /\
   wellFormedPager get total /\
   ceilDiv 24 (pageSize (mergeDefaults farStart)) - 1 <= Z.of_nat 10) /\
  ceilDiv 24 (pageSize (mergeDefaults farStart)) = 8 /\
  map (fun f => qs_start (fst f) - 2 ^ 53) (q_fetches (fst run))
  = [2; 4; 8; 12; 16; 20; 24] /\
  map (fun f => len (pageOfResponse (snd f))) (q_fetches (fst run))
  = [3; 3; 3; 3; 3; 3; 3] /\
  len (results (fst run)) = 21 /\
  match snd run with
  | Resolved r => Results r = Some (results (fst run))
  | _ => False
  end.
Proof.
  intros total get run.
  split; [|split; [reflexivity|]].
  - split; [reflexivity|]. split; [reflexivity|].
    split; [vm_compute; discriminate|]. split; [reflexivity|].
    split; [apply pagedServer_wellFormed | vm_compute; discriminate].
  - split; [vm_compute; reflexivity|]. split; [vm_compute; reflexivity|].
    split; vm_compute; reflexivity.
Qed.

(** C3, amended.  Against a fetcher that always answers with a
    well-formed envelope holding the page asked for (the number of
    records requested, or what is left of the collection when that is
    less), where the total result count is at most [2^53], so that the
    start indexes are added up exactly, a [query] with
    [0 < limit < records available from the start index] and a positive
    page size resolves, once it is given room for its fetches, with
    exactly [limit] records after exactly [ceil(limit / pageSize)]
    fetches; when [pageSize] divides [limit] these are [limit / pageSize]
    fetches. *)
Theorem exact_limit_results
    (A Err W : Type) (get : W -> Request -> Response A Err * W)
    (raw : RawOptions) (l total : Z) (fuel : nat) (w : W) :
  let options := mergeDefaults raw in
  raw_limit raw = Some l ->
  0 < l ->
  0 < pageSize options ->
  1 <= start options ->
  l < total - start options + 1 ->
  total <= 2 ^ 53 ->
  wellFormedPager get total ->
  ceilDiv l (pageSize options) - 1 <= Z.of_nat fuel ->
  exists st r,
    query get fuel raw w = (st, Resolved r) /\
    Results r = Some (results st) /\
    len (results st) = l /\
    len (q_fetches st) = ceilDiv l (pageSize options) /\
    (l mod pageSize options = 0 -> len (q_fetches st) = l / pageSize options).
Proof.
  intros options Hlimit Hl Hps Hstart Havail Hsafe Hget Hfuel.
  assert (Hlim : limit options = Some l) by exact Hlimit.
  unfold query. fold options.
  destruct (Hget w (requestOptions options))
    as (env & page & w' & Hg & HR & HS & HT & Hpage).
  rewrite Hg.
  pose proof (@optimalPageSize_min options l Hlim Hl) as Hopt.
  unfold requestOptions in HS, Hpage. cbn [qs_start qs_pagesize] in HS, Hpage.
  specialize (Hpage ltac:(lia)).
  set (st0 := {| results := []; totalFetched := 0; q_world := w';
                 q_fetches := [(requestOptions options, inr env)] |}
              : QueryState A Err W).
  assert (HS1 : StartIndex env
                = Js.Num (start options + (1 - 1) * pageSize options))
    by (rewrite HS; f_equal; lia).
  assert (Hpage1 :
            Z.min (optimalPageSize options)
                  (total - (start options + (1 - 1) * pageSize options) + 1)
            <= len page <= optimalPageSize options)
    by (replace (start options + (1 - 1) * pageSize options)
          with (start options) by lia; exact Hpage).
  destruct (@exact_limit_chain A Err W get options l total Hlim Hl Hps Hstart
              Havail Hsafe Hget fuel 1 st0 env page
              ltac:(lia) ltac:(simpl; lia) ltac:(reflexivity) ltac:(simpl; lia)
              ltac:(reflexivity) HR HS1 HT Hpage1 Hfuel)
    as (st' & r & Hrun & Hres & Hlen & Hcount).
  exists st', r. repeat split; auto.
  intros Hmod. rewrite Hcount. apply ceilDiv_exact; assumption.
Qed.

(** The test [should handle limit reached exactly at page boundary]:
    pageSize 100, limit 200, two fetches. *)
Lemma exact_limit_results_witness :
  let raw := Stub.options (Some 100) (Some 200) in
  let get := @Stub.pagedServer unit 10000 in
  raw_limit raw = Some 200 /\ 0 < 200 /\ 0 < pageSize (mergeDefaults raw) /\
  1 <= start (mergeDefaults raw) /\
  200 < 10000 - start (mergeDefaults raw) + 1 /\
  10000 <= 2 ^ 53 /\
  wellFormedPager get 10000 /\
  ceilDiv 200 (pageSize (mergeDefaults raw)) - 1 <= Z.of_nat 1 /\
  exists st r,
    query get 1 raw (O, tt) = (st, Resolved r) /\
    Results r = Some (results st) /\
    len (results st) = 200 /\
    len (q_fetches st) = ceilDiv 200 100 /\
    (200 mod 100 = 0 -> len (q_fetches st) = 200 / 100).
Proof.
  intros raw get.
  assert (H1 : raw_limit raw = Some 200) by reflexivity.
  assert (H2 : 0 < 200) by lia.
  assert (H3 : 0 < pageSize (mergeDefaults raw)) by (simpl; lia).
  assert (H4 : 1 <= start (mergeDefaults raw)) by (simpl; lia).
  assert (H5 : 200 < 10000 - start (mergeDefaults raw) + 1) by (simpl; lia).
  assert (Hs : 10000 <= 2 ^ 53) by (vm_compute; discriminate).
  assert (H6 : wellFormedPager get 10000) by apply pagedServer_wellFormed.
  assert (H7 : ceilDiv 200 (pageSize (mergeDefaults raw)) - 1 <= Z.of_nat 1)
    by (vm_compute; discriminate).
  repeat (split; [assumption|]).
  exact (@exact_limit_results Z string (Stub.World unit) get raw 200 10000 1%nat
           (O, tt) H1 H2 H3 H4 H5 Hs H6 H7).
Defined.

(** ** C4 and C5: what the first request carries *)

(** C4 (the code at the failing input).  [query] and [queryStream] called
    with [{pageSize: 0, limit: 5}], as in the tests [should ensure
    optimalPageSize is never 0 or negative] and [should handle
    optimalPageSize calculation correctly for queryStream]: the one
    request issued carries [pagesize = 0], not 1. *)
Lemma zero_page_size_is_sent :
  let raw := Stub.options (Some 0) (Some 5) in
  let get := @Stub.returns unit oneRecord in
  optimalPageSize (mergeDefaults raw) = 0 /\
  map fst (q_fetches (fst (query get 3 raw (O, tt)))) =
    [ {| qs_start := 1; qs_pagesize := 0 |} ] /\
  Stream.requestsOf
    (Stream.s_events (fst (Stream.queryStream get stopAtOnce 3 raw (O, tt)))) =
    [ {| qs_start := 1; qs_pagesize := 0 |} ].
Proof. repeat split. Qed.

(** C5 (the code at the failing input).  [query] called with
    [{limit: 0}], as in the test [should respect limit=0 and return no
    results]: one request is issued, with the default page size 200, and
    the page it brings is dropped. *)
Lemma zero_limit_still_fetches :
  let raw := Stub.options None (Some 0) in
  let run := query (@Stub.returns unit twoRecords) 3 raw (O, tt) in
  map fst (q_fetches (fst run)) = [ {| qs_start := 1; qs_pagesize := 200 |} ] /\
  fst (q_world (fst run)) = 1%nat /\
  snd run = Resolved {| Results := Some [];
                        StartIndex := Js.Num 1;
                        PageSize := Js.Num 0;
                        TotalResultCount := Js.Num 100 |}.
Proof. repeat split. Qed.

(** ** C6: stopping the stream *)

Section StopFacts.

Import Stream.

Variables A Err W : Type.
Variable get : W -> Request -> Response A Err * W.
Variable onPageCallback : W -> list A -> PageInfo -> (bool * list A) * W.

Abbreviation State := (StreamState A Err W).
Abbreviation Ev := (Event A Err).

Lemma noStop_snoc (evs : list Ev) ev :
  noStop evs -> isStop ev = false -> noStop (evs ++ [ev]).
Proof.
  intros H1 H2. apply Forall_app. split; [exact H1|]. constructor; auto.
Qed.

Lemma morePages_completed options processed (result : Envelope A) r :
  morePages options processed result = Finish r -> completed r = true.
Proof. intros H. apply morePages_finish in H. subst. reflexivity. Qed.

(** One page handler: it stops the run by a [false] answer, or leaves it
    unstopped. *)
Lemma processPages_page_stop options (st : State) result st' step :
  processPages_page onPageCallback options st result = (st', step) ->
  noStop (s_events st) ->
  (noStop (s_events st') /\ forall r, step = Finish r -> completed r = true) \/
  (exists page info after,
      s_events st' = s_events st ++ [Delivered page info false after] /\
      step = Finish {| sr_totalProcessed := totalProcessed st';
                       completed := false |} /\
      onPageCallback (s_world st) page info = ((false, after), s_world st')).
Proof.
  intros Hp Hn. apply processPages_page_cases in Hp.
  destruct Hp as [[-> [H|H]] | (pr & c & after & w' & _ & _ & _ & Hcb & -> & H)].
  - left. split; [exact Hn|]. intros r E. rewrite H in E. inversion E. reflexivity.
  - left. split; [exact Hn|]. intros r E. rewrite H in E.
    eapply morePages_completed; eauto.
  - destruct c.
    + left. split.
      * unfold afterDelivery; simpl. apply noStop_snoc; [exact Hn|reflexivity].
      * intros r E. rewrite H in E. unfold afterDeliveryStep in E. simpl in E.
        destruct (limit options) as [l|]; [destruct (l <=? _)|];
          try (inversion E; reflexivity);
          eapply morePages_completed; eauto.
    + right. unfold afterDelivery; simpl. eexists; eexists; eexists.
      split; [reflexivity|]. split; [rewrite H; reflexivity | exact Hcb].
Qed.

(** Every run is either stopped by the callback or unstopped. *)
Lemma processPages_stop options fuel :
  forall (st : State) result st' p,
    processPages get onPageCallback fuel options st result = (st', p) ->
    noStop (s_events st) ->
    Unstopped st' p \/ Stopped onPageCallback st' p.
Proof.
  induction fuel as [|fuel IH]; intros st result st' p H Hn; simpl in H;
    destruct (processPages_page onPageCallback options st result)
      as [st1 step] eqn:Hp;
    apply processPages_page_stop in Hp; auto;
    destruct Hp as [[Hn1 Hc] | (page & info & after & Hev & Hstep & Hcb)].
  - left. destruct step as [r|req]; inversion H; subst; split; auto.
    + intros r' E. inversion E; subst. auto.
    + discriminate.
  - right. rewrite Hstep in H. inversion H; subst.
    exists (s_events st), page, info, after. eauto.
  - destruct step as [r|req].
    + left. inversion H; subst. split; auto.
      intros r' E. inversion E; subst. auto.
    + destruct (get (s_world st1) req) as [resp w'].
      destruct resp as [e|next].
      * left. inversion H; subst. split; [|discriminate].
        simpl. apply noStop_snoc; [exact Hn1|reflexivity].
      * eapply IH; [exact H|]. simpl. apply noStop_snoc; [exact Hn1|reflexivity].
  - right. rewrite Hstep in H. inversion H; subst.
    exists (s_events st), page, info, after. eauto.
Qed.

Lemma queryStream_stop fuel raw w st p :
  queryStream get onPageCallback fuel raw w = (st, p) ->
  (Unstopped st p \/ Stopped onPageCallback st p) /\
  totalProcessed st = countedTotal (s_events st).
Proof.
  unfold queryStream. intros H.
  destruct (get w (requestOptions (mergeDefaults raw))) as [resp w'].
  destruct resp as [e|result].
  - inversion H; subst. split; [|reflexivity].
    left. split; [|discriminate]. repeat constructor.
  - split.
    + eapply processPages_stop; [exact H|]. repeat constructor.
    + eapply processPages_counts; [exact H|]. reflexivity.
Qed.

End StopFacts.

(** Pages reach the callback one at a time, each right after the fetch
    that brought it. *)
Section SequentialFacts.

Import Stream.

Variables A Err W : Type.
Variable get : W -> Request -> Response A Err * W.
Variable onPageCallback : W -> list A -> PageInfo -> (bool * list A) * W.

Abbreviation State := (StreamState A Err W).
Abbreviation Ev := (Event A Err).






End SequentialFacts.

(** Two pages, the callback answering [true] and then [false]. *)
Section TwoPages.

Import Stream.

Variables A Err W : Type.
Variable get : W -> Request -> Response A Err * W.
Variable onPageCallback : W -> list A -> PageInfo -> (bool * list A) * W.




End TwoPages.




(** ** C7: batch sizes and numbers *)

Section BatchSizes.

Import Batch.

Variables A Err W : Type.
Variable get : W -> Request -> Response A Err * W.
Variable onBatchCallback : W -> list A -> BatchInfo -> bool * W.

Abbreviation Call := (list A * BatchInfo * bool)%type.




End BatchSizes.



(** ** C8: the total result count of the last batch *)

(** C8 (the code at the failing input).  The server reports 350 results.
    The first batch, handed over while the page is being read, is told
    [totalResultCount = 350]; the remainder flushed after the stream has
    ended is told [totalResultCount = 100], the stream's [totalProcessed]. *)
Lemma flushed_batch_total_result_count :
  map (fun call => (Batch.batchNumber (infoOf call), len (batchOf call),
                    Batch.totalResultCount (infoOf call)))
      (Batch.b_calls (fst limitedBatches))
    = [ (1, 75, Js.Num 350); (2, 25, Js.Num 100) ] /\
  snd limitedBatches = Resolved {| Batch.br_totalProcessed := 100;
                                   Batch.totalBatches := 2;
                                   Batch.completed := true |}.
Proof. split; vm_compute; reflexivity. Qed.

(** ** C9: a failing fetch *)

Section FailureFacts.

Variables A Err W : Type.
Variable get : W -> Request -> Response A Err * W.

Abbreviation Fetch := (Request * Response A Err)%type.



End FailureFacts.



(** ** C10: the final flush *)

Section StoppedBatches.

Import Batch.

Variables A Err W : Type.
Variable get : W -> Request -> Response A Err * W.
Variable onBatchCallback : W -> list A -> BatchInfo -> bool * W.

(** The page callback answers [false] only right after it has handed
    over a batch, when nothing is pending. *)
Lemma onPage_stop batchSize pageInfo (pageResults : list A) :
  forall (st st' : BatchState A W),
    onPage onBatchCallback batchSize st pageResults pageInfo = (false, st') ->
    currentBatch st' = [].
Proof.
  induction pageResults as [|result rest IH]; intros st st' H; simpl in H.
  - discriminate.
  - destruct (batchSize <=? len (currentBatch st ++ [result])).
    + destruct (emitBatch onBatchCallback (Stream.totalResultCount pageInfo) st
                          (currentBatch st ++ [result])) as [c1 st1] eqn:He.
      apply emitBatch_calls in He.
      destruct He as (info & _ & _ & _ & _ & _ & _ & Hcur & _).
      destruct c1; [eapply IH; eauto|]. inversion H; subst. exact Hcur.
    + eapply IH; eauto.
Qed.

(** A stream stopped by the batch callback leaves no remainder to
    flush. *)
Lemma stopped_stream_leaves_nothing_pending fuel raw batchSize w sst streamResult :
  stream get onBatchCallback fuel raw batchSize w = (sst, Resolved streamResult) ->
  Stream.completed streamResult = false ->
  currentBatch (Stream.s_world sst) = [].
Proof.
  unfold stream. intros H Hc.
  apply queryStream_stop in H. destruct H as [[[_ Hcompl] | Hstopped] _].
  - rewrite (Hcompl _ eq_refl) in Hc. discriminate.
  - destruct Hstopped as (pre & page & info & after & _ & _ & _ & w0 & Hcb).
    apply pageCallback_answer in Hcb. destruct Hcb as [Hcb _].
    eapply onPage_stop; eauto.
Qed.

End StoppedBatches.

(** C10. When the underlying stream of a [queryBatch] run resolves, the
    run resolves too; if the pending batch is not empty it is handed to
    the callback once more, with the next batch number, whatever the
    stream's [completed] flag is, and it is booked whatever the callback
    answers: [totalProcessed] grows by its size and [totalBatches] by one;
    [completed] is that of the stream. *)
Theorem final_flush_ignores_answer
    (A Err W : Type) (get : W -> Request -> Response A Err * W)
    (onBatchCallback : W -> list A -> Batch.BatchInfo -> bool * W)
    (fuel : nat) (raw : RawOptions) (batchSizeArg : option Z) (w : W) :
  let batchSize :=
    match batchSizeArg with Some b => b | None => Batch.defaultBatchSize raw end in
  let underlying := Batch.stream get onBatchCallback fuel raw batchSize w in
  let before := Stream.s_world (fst underlying) in
  let pending := Batch.currentBatch before in
  let run := Batch.queryBatch get onBatchCallback fuel raw batchSizeArg w in
  forall streamResult,
    snd underlying = Resolved streamResult ->
    snd run = Resolved
      {| Batch.br_totalProcessed := Batch.totalProcessed before + len pending;
         Batch.totalBatches :=
           len (Batch.batches before) + (if 0 <? len pending then 1 else 0);
         Batch.completed := Stream.completed streamResult |} /\
    (pending <> [] ->
     exists info answer,
       onBatchCallback (Batch.b_world before) pending info
         = (answer, Batch.b_world (fst run)) /\
       Batch.batchNumber info = len (Batch.batches before) + 1 /\
       Batch.bi_batchSize info = len pending /\
       Batch.b_calls (fst run)
         = Batch.b_calls before ++ [(pending, info, answer)] /\
       Batch.batches (fst run) = Batch.batches before ++ [pending]) /\
    (pending = [] -> fst run = before).
Proof.
  intros batchSize underlying before pending run sr Hsr.
  unfold run, Batch.queryBatch. fold batchSize. fold underlying.
  destruct underlying as [sst sp] eqn:Hu. simpl in Hsr. subst sp.
  simpl in before. subst before.
  destruct (Batch.flush onBatchCallback (Stream.s_world sst) sr) as [st' r] eqn:Hf.
  pose proof (flush_result Hf) as (Hr & Hbt & Hc & _ & _).
  simpl. split; [|split].
  - f_equal. destruct r as [tp tb c]. simpl in *. subst. reflexivity.
  - intros Hne. apply len_pos_nonempty in Hne.
    unfold Batch.flush in Hf. fold pending in Hf.
    replace (0 <? len pending) with true in Hf
      by (symmetry; apply Z.ltb_lt; exact Hne).
    unfold Batch.emitBatch in Hf. fold pending in Hf.
    destruct (onBatchCallback (Batch.b_world (Stream.s_world sst)) pending _)
      as [answer w'] eqn:Hcb.
    simpl in Hf. inversion Hf; subst st'; clear Hf. simpl.
    eexists; exists answer. split; [exact Hcb|]. repeat split.
  - intros Hnil. unfold Batch.flush in Hf. fold pending in Hf.
    rewrite Hnil in Hf. simpl in Hf. inversion Hf. reflexivity.
Qed.

(** The test on batches of 75: the stream resolves with 50 records
    pending, which are flushed as batch 5. *)
Lemma final_flush_ignores_answer_witness :
  let underlying :=
    Batch.stream (Stub.onCall twoPages (inl "not scripted"%string))
      (@Stub.always unit Batch.BatchInfo) 5 (Stub.options (Some 200) None) 75 (O, tt) in
  snd underlying = Resolved {| Stream.sr_totalProcessed := 350;
                               Stream.completed := true |} /\
  snd batchesOf75 = Resolved {| Batch.br_totalProcessed := 300 + 50;
                                Batch.totalBatches := 4 + 1;
                                Batch.completed := true |}.
Proof.
  intros underlying.
  assert (H : snd underlying = Resolved {| Stream.sr_totalProcessed := 350;
                                           Stream.completed := true |})
    by (vm_compute; reflexivity).
  split; [exact H|].
  destruct (@final_flush_ignores_answer Z string (Stub.World unit)
              (Stub.onCall twoPages (inl "not scripted"%string))
              Stub.always 5 (Stub.options (Some 200) None) (Some 75) (O, tt)
              _ H) as (Hrun & _).
  exact Hrun.
Defined.

(** * Further properties of the drivers *)

(** ** What [query] accumulates *)

Section QueryContents.

Variables A Err W : Type.
Variable get : W -> Request -> Response A Err * W.

Lemma fetchedPages_snoc (fetches : list (Request * Response A Err)) req resp :
  List.concat (fetchedPages (fetches ++ [(req, resp)]))
  = List.concat (fetchedPages fetches) ++ pageOfResponse resp.
Proof.
  unfold fetchedPages. rewrite map_app, concat_app. simpl.
  rewrite app_nil_r. reflexivity.
Qed.

Lemma slice0_app_exact (n : Z) (xs ys : list A) :
  Z.to_nat n = List.length xs -> slice0 n (xs ++ ys) = xs.
Proof.
  intros H. unfold slice0. rewrite H.
  rewrite firstn_app, Nat.sub_diag, firstn_all. simpl. apply app_nil_r.
Qed.

Lemma slice0_app_more (n : Z) (xs ys : list A) :
  len xs <= n -> slice0 n (xs ++ ys) = xs ++ slice0 (n - len xs) ys.
Proof.
  intros H. unfold slice0, len in *.
  rewrite firstn_app.
  rewrite firstn_all2 by lia. f_equal. f_equal. lia.
Qed.

Lemma slice0_all_max (n : Z) (xs : list A) :
  len xs <= Z.max 0 n -> slice0 n xs = xs.
Proof.
  intros H. unfold slice0, len in *. apply firstn_all2. lia.
Qed.

(** One page: the accumulator becomes the old accumulator followed by the
    page, cut to the limit; when a further page is asked for, nothing was
    cut and the limit is not yet reached. *)
Lemma page_contents options (acc : list A) fetched result acc' fetched' step :
  loadRemainingPages_page options acc fetched result = ((acc', fetched'), step) ->
  len acc = fetched ->
  (forall l, limit options = Some l -> fetched <= Z.max 0 l) ->
  acc' = cutToLimit (limit options) (acc ++ pageOf result) /\
  (forall req, step = NextPage req ->
     acc' = acc ++ pageOf result /\
     forall l, limit options = Some l -> fetched' < l).
Proof.
  intros H Hlen Hbound.
  assert (Hwhole : forall page,
             pageOf result = page ->
             (forall l, limit options = Some l -> fetched + len page <= Z.max 0 l) ->
             continueOrFinish options (acc ++ page) (fetched + len page) result
               = ((acc', fetched'), step) ->
             acc' = cutToLimit (limit options) (acc ++ pageOf result) /\
             (forall req, step = NextPage req ->
                acc' = acc ++ pageOf result /\
                forall l, limit options = Some l -> fetched' < l)).
  { intros page Hpage Hfit E. rewrite Hpage.
    pose proof (f_equal fst E) as E1. rewrite continueOrFinish_acc in E1.
    inversion E1; subst acc' fetched'. split.
    - unfold cutToLimit. destruct (limit options) as [l|] eqn:Hl; [|reflexivity].
      symmetry. apply slice0_all_max. rewrite len_app.
      specialize (Hfit l eq_refl). lia.
    - intros req ->. split; [reflexivity|].
      unfold continueOrFinish in E.
      destruct (fetchNext options (fetched + len page) result) eqn:Hf;
        [|discriminate].
      intros l Hl. unfold fetchNext, withinLimit in Hf. rewrite Hl in Hf.
      apply andb_prop in Hf. destruct Hf as [_ Hf]. bools. exact Hf. }
  assert (Hempty : pageOf result = [] ->
             continueOrFinish options acc fetched result
               = ((acc', fetched'), step) ->
             acc' = cutToLimit (limit options) (acc ++ pageOf result) /\
             (forall req, step = NextPage req ->
                acc' = acc ++ pageOf result /\
                forall l, limit options = Some l -> fetched' < l)).
  { intros Hp E. apply (Hwhole [] Hp).
    - intros l Hl. specialize (Hbound l Hl). unfold len; simpl. lia.
    - rewrite app_nil_r.
      replace (fetched + len (@nil A)) with fetched by (unfold len; simpl; lia).
      exact E. }
  unfold loadRemainingPages_page in H. unfold pageOf in *.
  destruct (Results result) as [pageResults|] eqn:HR; [|apply Hempty; auto].
  destruct (0 <? len pageResults) eqn:Hpos; bools.
  - destruct (limit options) as [l|] eqn:Hl.
    + specialize (Hbound l eq_refl).
      destruct (l - fetched <=? 0) eqn:Hrem; bools.
      * inversion H; subst. split; [|discriminate].
        unfold cutToLimit. symmetry. apply slice0_app_exact.
        unfold len in *. lia.
      * destruct (l - fetched <? len pageResults) eqn:Hcut; bools.
        -- inversion H; subst. split; [|discriminate].
           unfold cutToLimit. symmetry. apply slice0_app_more. lia.
        -- apply (Hwhole pageResults eq_refl); [|exact H].
           intros l0 E. inversion E; subst. lia.
    + apply (Hwhole pageResults eq_refl); [|exact H]. discriminate.
  - assert (pageResults = []) as ->.
    { destruct pageResults; [reflexivity|]. unfold len in Hpos. simpl in Hpos. lia. }
    apply Hempty; auto.
Qed.

(** The chain: on entry the accumulator holds the pages fetched before
    the envelope at hand, uncut. *)
Lemma loadRemainingPages_contents options fuel :
  forall (st : QueryState A Err W) result st' p pre req,
    loadRemainingPages get fuel options st result = (st', p) ->
    q_fetches st = pre ++ [(req, inr result)] ->
    results st = List.concat (fetchedPages pre) ->
    len (results st) = totalFetched st ->
    (forall l, limit options = Some l -> totalFetched st <= Z.max 0 l) ->
    results st' = cutToLimit (limit options) (List.concat (fetchedPages (q_fetches st'))).
Proof.
  induction fuel as [|fuel IH];
    intros st result st' p pre req H Hlog Hacc Hlen Hbound; simpl in H;
    destruct (loadRemainingPages_page options (results st) (totalFetched st) result)
      as [[acc fetched] step] eqn:Hp;
    pose proof (page_counts _ _ _ Hp Hlen) as Hlen';
    destruct (page_contents _ _ _ Hp Hlen Hbound) as [Hcut Hnext];
    assert (Hall : List.concat (fetchedPages (q_fetches st))
                   = results st ++ pageOf result)
      by (rewrite Hlog, fetchedPages_snoc, <- Hacc; reflexivity).
  - destruct step as [r|req']; inversion H; simpl; rewrite Hall;
      exact Hcut.
  - destruct step as [r|req'].
    + inversion H; simpl. rewrite Hall. exact Hcut.
    + destruct (Hnext _ eq_refl) as [E Hlt].
      simpl in H. destruct (get (q_world st) req') as [resp w'].
      destruct resp as [e|next].
      * inversion H; simpl.
        rewrite fetchedPages_snoc, Hall. simpl. rewrite app_nil_r. exact Hcut.
      * eapply IH in H; [exact H | reflexivity | | |]; simpl.
        -- rewrite Hall. exact E.
        -- exact Hlen'.
        -- intros l Hl. specialize (Hlt l Hl). lia.
Qed.

(** A resolved [query] hands back the envelope of some fetch, overwritten
    with the accumulator. *)
Lemma query_resolved_result fuel raw w st r :
  query get fuel raw w = (st, Resolved r) ->
  exists env, r = finalResult (mergeDefaults raw) (results st) env.
Proof.
  unfold query. intros H.
  destruct (get w (requestOptions (mergeDefaults raw))) as [resp w'].
  destruct resp as [e|result]; [discriminate|].
  eapply loadRemainingPages_resolved; eauto.
Qed.

(** X1. The records [query] holds are the pages it fetched, in the order
    fetched and in the order the server gave them, cut to the limit when
    one is set; a resolved [query] returns exactly these records.  Without
    a limit this is the concatenation of all pages fetched. *)
Theorem query_results_are_the_pages_in_order
    (fuel : nat) (raw : RawOptions) (w : W) :
  let run := query get fuel raw w in
  let pages := fetchedPages (q_fetches (fst run)) in
  results (fst run) = cutToLimit (limit (mergeDefaults raw)) (List.concat pages) /\
  (forall r, snd run = Resolved r ->
     Results r = Some (cutToLimit (limit (mergeDefaults raw)) (List.concat pages))).
Proof.
  intros run pages.
  assert (Hres : results (fst run)
                 = cutToLimit (limit (mergeDefaults raw)) (List.concat pages)).
  { unfold pages, run, query.
    destruct (get w (requestOptions (mergeDefaults raw))) as [resp w'].
    destruct resp as [e|result].
    - simpl. destruct (raw_limit raw); simpl; unfold slice0;
        rewrite ?firstn_nil; reflexivity.
    - destruct (loadRemainingPages get fuel (mergeDefaults raw) _ result)
        as [st' p] eqn:Hrun.
      simpl. eapply loadRemainingPages_contents with (pre := []) in Hrun;
        [exact Hrun | reflexivity | reflexivity | reflexivity |].
      simpl. intros l _. lia. }
  split; [exact Hres|].
  intros r Hr. rewrite <- Hres.
  assert (E : query get fuel raw w = (fst run, Resolved r))
    by (rewrite <- Hr; apply surjective_pairing).
  apply query_resolved_result in E. destruct E as [env ->]. reflexivity.
Qed.

End QueryContents.

(** ** The envelope [query] hands back *)

Section QueryEnvelope.

Variables A Err W : Type.
Variable get : W -> Request -> Response A Err * W.

Lemma page_finish_exact options (acc : list A) fetched result acc' fetched' r :
  loadRemainingPages_page options acc fetched result = ((acc', fetched'), Finish r) ->
  r = finalResult options acc' result.
Proof.
  unfold loadRemainingPages_page. intros H.
  cases_in H;
  try (pose proof (f_equal fst H) as H1; rewrite continueOrFinish_acc in H1;
       apply (f_equal snd) in H; apply continueOrFinish_finish in H;
       simpl in *; inversion H1; subst; reflexivity);
  inversion H; subst; reflexivity.
Qed.

Lemma loadRemainingPages_last_envelope options fuel :
  forall (st : QueryState A Err W) result st' r pre req,
    loadRemainingPages get fuel options st result = (st', Resolved r) ->
    q_fetches st = pre ++ [(req, inr result)] ->
    exists pre' req' last,
      q_fetches st' = pre' ++ [(req', inr last)] /\
      r = finalResult options (results st') last.
Proof.
  induction fuel as [|fuel IH]; intros st result st' r pre req H Hlog; simpl in H;
    destruct (loadRemainingPages_page options (results st) (totalFetched st) result)
      as [[acc fetched] step] eqn:Hp;
    destruct step as [r'|req'].
  - inversion H; subst. apply page_finish_exact in Hp.
    exists pre, req, result. simpl. auto.
  - discriminate.
  - inversion H; subst. apply page_finish_exact in Hp.
    exists pre, req, result. simpl. auto.
  - simpl in H. destruct (get (q_world st) req') as [resp w'].
    destruct resp as [e|next]; [discriminate|].
    eapply IH in H; [exact H|]. simpl. reflexivity.
Qed.

(** X2. A resolved [query] hands back the envelope of the last page it
    fetched, overwritten in three fields: [Results] is the accumulator,
    [StartIndex] is the caller's start index (the default 1 when none was
    given) and [PageSize] is the number of records returned;
    [TotalResultCount] is that of the last envelope, whatever kind of
    value it is. *)
Theorem query_hands_back_the_last_envelope
    (fuel : nat) (raw : RawOptions) (w : W) (r : Envelope A) :
  let run := query get fuel raw w in
  snd run = Resolved r ->
  exists earlier req last records,
    q_fetches (fst run) = earlier ++ [(req, inr last)] /\
    Results r = Some records /\
    records = results (fst run) /\
    StartIndex r = Js.Num (start (mergeDefaults raw)) /\
    PageSize r = Js.Num (len records) /\
    TotalResultCount r = TotalResultCount last.
Proof.
  intros run Hr.
  assert (E : query get fuel raw w = (fst run, Resolved r))
    by (rewrite <- Hr; apply surjective_pairing).
  unfold query in E.
  destruct (get w (requestOptions (mergeDefaults raw))) as [resp w'].
  destruct resp as [e|result]; [discriminate|].
  eapply loadRemainingPages_last_envelope with (pre := []) in E; [|reflexivity].
  destruct E as (pre' & req' & last & Hlog & ->).
  exists pre', req', last, (results (fst run)). simpl. auto 10.
Qed.

End QueryEnvelope.

(** The test [should respect limit=0 and return no results] asks for
    [TotalResultCount] 0; the envelope handed back carries the server's
    100. *)
Lemma query_hands_back_the_last_envelope_witness :
  let run := query (@Stub.returns unit twoRecords) 3 (Stub.options None (Some 0)) (O, tt) in
  snd run = Resolved {| Results := Some []; StartIndex := Js.Num 1;
                        PageSize := Js.Num 0; TotalResultCount := Js.Num 100 |} /\
  exists earlier req last records,
    q_fetches (fst run) = earlier ++ [(req, inr last)] /\
    Results {| Results := Some []; StartIndex := Js.Num 1;
               PageSize := Js.Num 0; TotalResultCount := Js.Num 100 |}
      = Some records /\
    records = results (fst run) /\
    Js.Num 1 = Js.Num (start (mergeDefaults (Stub.options None (Some 0)))) /\
    Js.Num 0 = Js.Num (len records) /\
    Js.Num 100 = TotalResultCount last.
Proof.
  intros run.
  assert (H : snd run = Resolved {| Results := Some []; StartIndex := Js.Num 1;
                                    PageSize := Js.Num 0;
                                    TotalResultCount := Js.Num 100 |})
    by reflexivity.
  split; [exact H|].
  exact (@query_hands_back_the_last_envelope Z string (Stub.World unit)
           (Stub.returns twoRecords) 3 (Stub.options None (Some 0)) (O, tt) _ H).
Defined.

(** ** How many requests [query] issues *)

Section QueryBounds.

Variables A Err W : Type.
Variable get : W -> Request -> Response A Err * W.

Lemma len_nonempty (xs : list A) : xs <> [] -> 1 <= len xs.
Proof. intros H. apply len_pos_nonempty in H. lia. Qed.

Lemma len_snoc {X} (xs : list X) (x : X) : len (xs ++ [x]) = len xs + 1.
Proof. rewrite len_app. reflexivity. Qed.

(** Under a limit, with non-empty pages, the chain settles within the
    fetches the limit leaves room for. *)
Lemma loadRemainingPages_settles_within options l fuel :
  limit options = Some l ->
  neverEmpty get ->
  forall (st : QueryState A Err W) result st' p,
    loadRemainingPages get fuel options st result = (st', p) ->
    pageOf result <> [] ->
    len (results st) = totalFetched st ->
    totalFetched st <= Z.max 0 l ->
    l - totalFetched st - 1 <= Z.of_nat fuel ->
    p <> Pending /\
    len (q_fetches st') <= len (q_fetches st) + Z.max 0 (l - totalFetched st - 1).
Proof.
  intros Hl Hne. induction fuel as [|fuel IH];
    intros st result st' p H Hpage Hlen Hbound Hfuel; simpl in H;
    destruct (loadRemainingPages_page options (results st) (totalFetched st) result)
      as [[acc fetched] step] eqn:Hp;
    pose proof (page_counts _ _ _ Hp Hlen) as Hlen';
    destruct (@page_contents _ options _ _ _ _ _ _ Hp Hlen) as [_ Hnext];
    try (intros l0 E; rewrite Hl in E; inversion E; subst; exact Hbound);
    (destruct step as [r|req];
     [ inversion H; subst; simpl; split; [discriminate|lia] | ]);
    destruct (Hnext _ eq_refl) as [Hacc Hlt]; specialize (Hlt l Hl);
    assert (Hgrow : totalFetched st + 1 <= fetched)
      by (rewrite <- Hlen', Hacc, len_app, Hlen;
          pose proof (len_nonempty Hpage); lia).
  - lia.
  - simpl in H. pose proof (Hne (q_world st) req) as Hnext_page.
    destruct (get (q_world st) req) as [resp w'].
    destruct resp as [e|next].
    + inversion H; subst; simpl. split; [discriminate|].
      rewrite len_snoc. lia.
    + apply IH in H; simpl; auto; try lia.
      destruct H as [Hp' Hcount]. split; [exact Hp'|].
      simpl in Hcount. rewrite len_snoc in Hcount. lia.
Qed.

(** X3. With a limit [l] and a fetcher that never answers with an empty
    page, [query] issues at most [max(1, l)] requests and then settles
    (resolved, or rejected by a failing fetch): room for [l - 1] further
    fetches always suffices. *)
Theorem query_settles_within_the_limit
    (fuel : nat) (raw : RawOptions) (w : W) (l : Z) :
  raw_limit raw = Some l ->
  neverEmpty get ->
  l - 1 <= Z.of_nat fuel ->
  let run := query get fuel raw w in
  snd run <> Pending /\ len (q_fetches (fst run)) <= Z.max 1 l.
Proof.
  intros Hl Hne Hfuel run. unfold run, query.
  pose proof (Hne w (requestOptions (mergeDefaults raw))) as Hfirst.
  destruct (get w (requestOptions (mergeDefaults raw))) as [resp w'].
  destruct resp as [e|result].
  - simpl. split; [discriminate|]. unfold len; simpl; lia.
  - destruct (loadRemainingPages get fuel (mergeDefaults raw) _ result)
      as [st' p] eqn:Hrun.
    eapply loadRemainingPages_settles_within in Hrun; eauto;
      cbn [q_fetches totalFetched results] in *; try lia; try reflexivity.
    change (len [(requestOptions (mergeDefaults raw), @inr Err _ result)])
      with 1 in Hrun.
    cbn [fst snd]. destruct Hrun as [Hp Hcount]. split; [exact Hp | lia].
Qed.

Lemma fetchNext_unlimited options count count' (result : Envelope A) :
  limit options = None ->
  fetchNext options count result = fetchNext options count' result.
Proof. intros H. unfold fetchNext, withinLimit. rewrite H. reflexivity. Qed.

(** Without a limit, an envelope that passes the test of line 357 always
    leads to a further request. *)
Lemma page_unlimited_next options (acc : list A) fetched result :
  limit options = None ->
  fetchNext options 0 result = true ->
  exists acc' fetched',
    loadRemainingPages_page options acc fetched result
      = ((acc', fetched'), NextPage (nextPageOptions options result)).
Proof.
  intros Hl Hf. unfold loadRemainingPages_page, continueOrFinish.
  rewrite Hl.
  destruct (Results result) as [page|]; [destruct (0 <? len page)|];
    match goal with
    | |- context [fetchNext options ?c result] =>
        rewrite (@fetchNext_unlimited options c 0 result Hl), Hf
    end; eauto.
Qed.

Lemma loadRemainingPages_repeating options result fuel :
  limit options = None ->
  fetchNext options 0 result = true ->
  alwaysAnswers get result ->
  forall (st : QueryState A Err W),
    snd (loadRemainingPages get fuel options st result) = Pending /\
    List.length (q_fetches (fst (loadRemainingPages get fuel options st result)))
      = (List.length (q_fetches st) + fuel)%nat.
Proof.
  intros Hl Hf Hget. induction fuel as [|fuel IH]; intros st;
    destruct (@page_unlimited_next options (results st) (totalFetched st) result
                Hl Hf) as (acc & fetched & Hp); simpl; rewrite Hp.
  - simpl. split; [reflexivity|lia].
  - simpl. pose proof (Hget (q_world st) (nextPageOptions options result)) as Hg.
    destruct (get (q_world st) (nextPageOptions options result)) as [resp w'].
    simpl in Hg. subst resp.
    destruct (IH {| results := acc; totalFetched := fetched; q_world := w';
                    q_fetches := q_fetches st ++
                      [(nextPageOptions options result, inr result)] |})
      as [Hpending Hcount].
    split; [exact Hpending|]. etransitivity; [exact Hcount|].
    cbn [q_fetches]. rewrite length_app. simpl. lia.
Qed.

(** X4. The validity test does not bound the number of requests by
    itself: without a limit, against a fetcher that answers every request
    with the same envelope, and that envelope passes the test (non-zero
    numeric start index and total, start index + page size <= total),
    [query] never settles: whatever room it is given, it uses all of it
    and is still pending. *)
Theorem query_follows_a_repeating_server
    (fuel : nat) (raw : RawOptions) (w : W) (result : Envelope A) :
  raw_limit raw = None ->
  fetchNext (mergeDefaults raw) 0 result = true ->
  alwaysAnswers get result ->
  let run := query get fuel raw w in
  snd run = Pending /\ List.length (q_fetches (fst run)) = S fuel.
Proof.
  intros Hl Hf Hget run. unfold run, query.
  pose proof (Hget w (requestOptions (mergeDefaults raw))) as Hg.
  destruct (get w (requestOptions (mergeDefaults raw))) as [resp w'].
  simpl in Hg. subst resp.
  destruct (@loadRemainingPages_repeating (mergeDefaults raw) result fuel Hl Hf Hget
              {| results := []; totalFetched := 0; q_world := w';
                 q_fetches := [(requestOptions (mergeDefaults raw), inr result)] |})
    as [Hpending Hcount].
  split; [exact Hpending | exact Hcount].
Qed.

End QueryBounds.

Lemma returns_neverEmpty {S} (result : Envelope Z) :
  pageOf result <> [] -> neverEmpty (@Stub.returns S result).
Proof. intros H w req. exact H. Qed.

(** Two records a page, limit 5: three requests. *)
Lemma query_settles_within_the_limit_witness :
  let raw := Stub.options (Some 10) (Some 5) in
  let run := query (@Stub.returns unit twoRecords) 4 raw (O, tt) in
  raw_limit raw = Some 5 /\
  neverEmpty (@Stub.returns unit twoRecords) /\
  5 - 1 <= Z.of_nat 4 /\
  snd run <> Pending /\ len (q_fetches (fst run)) <= Z.max 1 5.
Proof.
  intros raw run.
  assert (H1 : raw_limit raw = Some 5) by reflexivity.
  assert (H2 : neverEmpty (@Stub.returns unit twoRecords))
    by (apply returns_neverEmpty; discriminate).
  assert (H3 : 5 - 1 <= Z.of_nat 4) by (simpl; lia).
  split; [exact H1|]. split; [exact H2|]. split; [exact H3|].
  exact (@query_settles_within_the_limit Z string (Stub.World unit)
           (Stub.returns twoRecords) 4 raw (O, tt) 5 H1 H2 H3).
Defined.

(** The same server without a limit: with room for 7 further fetches
    there are 8 requests and no end. *)
Lemma query_follows_a_repeating_server_witness :
  let raw := Stub.options (Some 10) None in
  let run := query (@Stub.returns unit twoRecords) 7 raw (O, tt) in
  raw_limit raw = None /\
  fetchNext (mergeDefaults raw) 0 twoRecords = true /\
  alwaysAnswers (@Stub.returns unit twoRecords) twoRecords /\
  snd run = Pending /\ List.length (q_fetches (fst run)) = 8%nat.
Proof.
  intros raw run.
  assert (H1 : raw_limit raw = None) by reflexivity.
  assert (H2 : fetchNext (mergeDefaults raw) 0 twoRecords = true) by reflexivity.
  assert (H3 : alwaysAnswers (@Stub.returns unit twoRecords) twoRecords)
    by (intros w req; reflexivity).
  split; [exact H1|]. split; [exact H2|]. split; [exact H3|].
  exact (@query_follows_a_repeating_server Z string (Stub.World unit)
           (Stub.returns twoRecords) 7 raw (O, tt) twoRecords H1 H2 H3).
Defined.

(** ** What [queryStream] tells its callback *)

Section StreamTotals.

Import Stream.

Variables A Err W : Type.
Variable get : W -> Request -> Response A Err * W.
Variable onPageCallback : W -> list A -> PageInfo -> (bool * list A) * W.

Lemma runningTotals_fetched (evs : list (Event A Err)) req resp :
  runningTotals evs -> runningTotals (evs ++ [Fetched req resp]).
Proof.
  intros H pre page info c after post E.
  apply list_snoc_split in E. destruct E as [(_ & _ & E) | (post' & _ & E)].
  - discriminate.
  - eapply H; eauto.
Qed.

(** X5. Every [pageInfo] that [queryStream] hands to the page callback
    carries the number of records of that (limit-trimmed) page as
    [pageSize], and as [totalProcessed] the driver's count of the earlier
    pages plus the size of that page.  The driver counts a page by the
    length its callback left it with: as long as no callback has changed
    the length of its page, [totalProcessed] is the running total of the
    records handed over so far, that page included. *)
Theorem page_info_carries_running_total
    (fuel : nat) (raw : RawOptions) (w : W) :
  runningTotals (s_events (fst (queryStream get onPageCallback fuel raw w))).
Proof.
  destruct (queryStream get onPageCallback fuel raw w) as [st p] eqn:Hrun.
  simpl. unfold queryStream in Hrun.
  destruct (get w (requestOptions (mergeDefaults raw))) as [resp w'].
  assert (Hinit : forall r : Response A Err,
             runningTotals [Fetched (requestOptions (mergeDefaults raw)) r]).
  { intros r pre page info c after post E.
    destruct pre as [|x pre]; [discriminate|].
    inversion E. destruct pre; discriminate. }
  destruct resp as [e|result]; [inversion Hrun; subst; apply Hinit|].
  refine (proj2 (@processPages_invariant _ _ _ get onPageCallback
            (fun s => totalProcessed s = countedTotal (s_events s) /\
                      runningTotals (s_events s))
            (mergeDefaults raw) _ _ _ _ _ _ _ Hrun _)).
  - intros s result0 s' step Hp [Hcount Htot].
    apply processPages_page_cases in Hp.
    destruct Hp as [[-> _] | (pr & c & after & w1 & _ & _ & _ & _ & -> & _)];
      [split; assumption|].
    unfold afterDelivery; simpl. split.
    + rewrite countedTotal_delivered. lia.
    + intros pre page info c0 after0 post E.
      apply list_snoc_split in E.
      destruct E as [(_ & -> & E) | (post' & _ & E)]; [|eapply Htot; eauto].
      inversion E; subst. simpl. split; [reflexivity|]. split; [lia|].
      intros Hk. rewrite <- (lengthsKept_counted Hk). lia.
  - intros s req resp w1 _ [Hcount Htot]. simpl. split.
    + rewrite countedTotal_fetched. exact Hcount.
    + apply runningTotals_fetched. exact Htot.
  - simpl. split; [reflexivity | apply Hinit].
Qed.

End StreamTotals.

(** ** A failing fetch in [queryStream] *)

Section StreamFailure.

Import Stream.

Variables A Err W : Type.
Variable get : W -> Request -> Response A Err * W.
Variable onPageCallback : W -> list A -> PageInfo -> (bool * list A) * W.

Abbreviation noFailedFetch :=
  (Forall (fun ev : Event A Err => isFailedFetch ev = false)).

Lemma processPages_failure options fuel :
  forall (st : StreamState A Err W) result st' p,
    processPages get onPageCallback fuel options st result = (st', p) ->
    noFailedFetch (s_events st) ->
    (noFailedFetch (s_events st') /\ forall e, p <> Rejected e) \/
    (exists pre req e,
        s_events st' = pre ++ [Fetched req (inl e)] /\
        noFailedFetch pre /\ p = Rejected e).
Proof.
  induction fuel as [|fuel IH]; intros st result st' p H Hn; simpl in H;
    destruct (processPages_page onPageCallback options st result)
      as [st1 step] eqn:Hp;
    assert (Hn1 : noFailedFetch (s_events st1))
      by (apply processPages_page_cases in Hp;
          destruct Hp as [[-> _] | (pr & c & after & w1 & _ & _ & _ & _ & -> & _)];
          [exact Hn|];
          unfold afterDelivery; simpl; apply Forall_app; split;
          [exact Hn | repeat constructor]).
  - left. destruct step; inversion H; subst; split; auto; discriminate.
  - destruct step as [r|req].
    + left. inversion H; subst. split; [exact Hn1|discriminate].
    + destruct (get (s_world st1) req) as [resp w'].
      destruct resp as [e|next].
      * right. inversion H; subst. simpl. exists (s_events st1), req, e. auto.
      * eapply IH; [exact H|]. simpl.
        apply Forall_app. split; [exact Hn1 | repeat constructor].
Qed.

Lemma queryStream_failure fuel raw (w : W) :
  let run := queryStream get onPageCallback fuel raw w in
  (noFailedFetch (s_events (fst run)) /\ forall e, snd run <> Rejected e) \/
  (exists pre req e,
      s_events (fst run) = pre ++ [Fetched req (inl e)] /\
      noFailedFetch pre /\ snd run = Rejected e).
Proof.
  unfold queryStream.
  destruct (get w (requestOptions (mergeDefaults raw))) as [resp w'].
  destruct resp as [e|result].
  - right. simpl. exists [], (requestOptions (mergeDefaults raw)), e.
    split; [reflexivity|]. split; [constructor|reflexivity].
  - destruct (processPages get onPageCallback fuel (mergeDefaults raw) _ result)
      as [st' p] eqn:Hp.
    simpl. eapply processPages_failure; [exact Hp|]. repeat constructor.
Qed.

Lemma failed_fetch_is_last fuel raw (w : W) pre req e post :
  let run := queryStream get onPageCallback fuel raw w in
  s_events (fst run) = pre ++ Fetched req (inl e) :: post ->
  post = [] /\ snd run = Rejected e.
Proof.
  intros run E.
  pose proof (queryStream_failure fuel raw w) as H. cbv zeta in H. fold run in H.
  destruct H as [[Hn _] | (pre' & req' & e' & E' & Hn & Hp)].
  - exfalso. rewrite E in Hn. apply Forall_app in Hn. destruct Hn as [_ Hn].
    inversion Hn; subst. discriminate.
  - rewrite E in E'.
    apply (first_marked_unique (@isFailedFetch A Err)) in E';
      [|reflexivity|exact Hn].
    destruct E' as (-> & <- & E'). inversion E'; subst e'. auto.
Qed.


End StreamFailure.

(** ** [queryStream] against [query] *)

Section Agreement.

Import Stream.

Variables A Err W : Type.
Variable get : W -> Request -> Response A Err * W.

Lemma continue_agrees options (acc : list A) count result :
  sameStep count (snd (continueOrFinish options acc count result))
                 (morePages options count result).
Proof.
  unfold continueOrFinish, morePages.
  destruct (fetchNext options count result); reflexivity.
Qed.

(** One page, handled by [query] and by [queryStream] under [keepGoing]:
    the same records are taken, the same count is reached, the same
    decision is made. *)
Lemma page_agrees options (acc : list A) (st : StreamState A Err W) result :
  len acc = totalProcessed st ->
  exists taken,
    let q := loadRemainingPages_page options acc (totalProcessed st) result in
    let s := processPages_page (@keepGoing A W) options st result in
    fst q = (acc ++ taken, totalProcessed st + len taken) /\
    totalProcessed (fst s) = totalProcessed st + len taken /\
    s_world (fst s) = s_world st /\
    List.concat (pagesOf (s_events (fst s)))
      = List.concat (pagesOf (s_events st)) ++ taken /\
    requestsOf (s_events (fst s)) = requestsOf (s_events st) /\
    sameStep (totalProcessed st + len taken) (snd q) (snd s).
Proof.
  intros Hlen.
  assert (Hnone : exists taken,
             let q := continueOrFinish options acc (totalProcessed st) result in
             let s := (st, morePages options (totalProcessed st) result) in
             fst q = (acc ++ taken, totalProcessed st + len taken) /\
             totalProcessed (fst s) = totalProcessed st + len taken /\
             s_world (fst s) = s_world st /\
             List.concat (pagesOf (s_events (fst s)))
               = List.concat (pagesOf (s_events st)) ++ taken /\
             requestsOf (s_events (fst s)) = requestsOf (s_events st) /\
             sameStep (totalProcessed st + len taken) (snd q) (snd s)).
  { exists []. cbn [fst snd]. rewrite continueOrFinish_acc, !app_nil_r.
    replace (totalProcessed st + len (@nil A)) with (totalProcessed st)
      by (unfold len; simpl; lia).
    repeat split. apply continue_agrees. }
  assert (Hdeliver : forall taken,
             (forall l, limit options = Some l ->
                        totalProcessed st + len taken <= l) ->
             let q := continueOrFinish options (acc ++ taken)
                        (totalProcessed st + len taken) result in
             let s := deliverPage (@keepGoing A W) options st result taken in
             fst q = (acc ++ taken, totalProcessed st + len taken) /\
             totalProcessed (fst s) = totalProcessed st + len taken /\
             s_world (fst s) = s_world st /\
             List.concat (pagesOf (s_events (fst s)))
               = List.concat (pagesOf (s_events st)) ++ taken /\
             requestsOf (s_events (fst s)) = requestsOf (s_events st) /\
             sameStep (totalProcessed st + len taken) (snd q) (snd s)).
  { intros taken Hfit. cbn zeta. rewrite continueOrFinish_acc.
    unfold deliverPage, keepGoing. cbn [negb].
    assert (Hlog : forall step : Step StreamResult,
               let s := ({| totalProcessed := totalProcessed st + len taken;
                            s_world := s_world st;
                            s_events := s_events st ++
                              [Delivered taken
                                 {| startIndex := StartIndex result;
                                    pi_pageSize := len taken;
                                    totalResultCount := TotalResultCount result;
                                    pi_totalProcessed :=
                                      totalProcessed st + len taken |} true
                                 taken] |},
                         step) in
               totalProcessed (fst s) = totalProcessed st + len taken /\
               s_world (fst s) = s_world st /\
               List.concat (pagesOf (s_events (fst s)))
                 = List.concat (pagesOf (s_events st)) ++ taken /\
               requestsOf (s_events (fst s)) = requestsOf (s_events st)).
    { intros step. cbn [fst totalProcessed s_world s_events].
      rewrite pagesOf_app, requestsOf_app, concat_app. simpl.
      rewrite !app_nil_r. auto. }
    destruct (limit options) as [l|] eqn:Hl.
    - destruct (l <=? totalProcessed st + len taken) eqn:Hreached; bools.
      + destruct (Hlog (Finish {| sr_totalProcessed := totalProcessed st + len taken;
                                  completed := true |})) as (H1 & H2 & H3 & H4).
        repeat split; auto. cbn [snd]. unfold continueOrFinish.
        rewrite (@fetchNext_at_limit _ options l) by (auto; lia). reflexivity.
      + destruct (Hlog (morePages options (totalProcessed st + len taken) result))
          as (H1 & H2 & H3 & H4).
        repeat split; auto. cbn [snd]. apply continue_agrees.
    - destruct (Hlog (morePages options (totalProcessed st + len taken) result))
        as (H1 & H2 & H3 & H4).
      repeat split; auto. cbn [snd]. apply continue_agrees. }
  unfold loadRemainingPages_page, processPages_page, limitedPageResults.
  destruct (Results result) as [page|]; [|exact Hnone].
  destruct (0 <? len page) eqn:Hpos; [|exact Hnone]. bools.
  destruct (limit options) as [l|] eqn:Hl.
  - destruct (l - totalProcessed st <=? 0) eqn:Hrem; bools.
    + exists []. cbn [fst snd]. rewrite !app_nil_r.
      replace (totalProcessed st + len (@nil A)) with (totalProcessed st)
        by (unfold len; simpl; lia).
      repeat split.
    + cbn zeta. destruct (l - totalProcessed st <? len page) eqn:Hcut; bools.
      * exists (slice0 (l - totalProcessed st) page).
        assert (Hs : len (slice0 (l - totalProcessed st) page)
                     = l - totalProcessed st) by (apply len_slice0; lia).
        destruct (Hdeliver (slice0 (l - totalProcessed st) page))
          as (_ & H2 & H3 & H4 & H5 & _).
        { intros l0 E. inversion E; subst. lia. }
        cbn [fst snd]. rewrite Hs in *.
        repeat split; auto.
        unfold deliverPage, keepGoing. cbn [negb]. rewrite Hl, Hs.
        replace (l <=? totalProcessed st + (l - totalProcessed st)) with true
          by (symmetry; apply Z.leb_le; lia).
        reflexivity.
      * exists page. apply Hdeliver. intros l0 E. inversion E; subst. lia.
  - exists page. apply Hdeliver. discriminate.
Qed.

(** The two chains, from states that agree. *)
Lemma chains_agree options fuel :
  forall (qst : QueryState A Err W) (sst : StreamState A Err W) result,
    len (results qst) = totalFetched qst ->
    totalFetched qst = totalProcessed sst ->
    q_world qst = s_world sst ->
    results qst = List.concat (pagesOf (s_events sst)) ->
    map fst (q_fetches qst) = requestsOf (s_events sst) ->
    let q := loadRemainingPages get fuel options qst result in
    let s := processPages get (@keepGoing A W) fuel options sst result in
    map fst (q_fetches (fst q)) = requestsOf (s_events (fst s)) /\
    results (fst q) = List.concat (pagesOf (s_events (fst s))) /\
    q_world (fst q) = s_world (fst s) /\
    sameOutcome (len (results (fst q))) (snd q) (snd s).
Proof.
  induction fuel as [|fuel IH]; intros qst sst result Hlen Hcount Hw Hres Hreq;
    rewrite Hcount in Hlen;
    destruct (@page_agrees options (results qst) sst result Hlen)
      as (taken & Hq & Htp & Hsw & Hpages & Hreqs & Hstep);
    cbn zeta in *; simpl; rewrite Hcount;
    destruct (loadRemainingPages_page options (results qst) (totalProcessed sst)
                result) as [[acc fetched] qstep];
    destruct (processPages_page (@keepGoing A W) options sst result)
      as [sst1 sstep];
    cbn [fst snd] in *; inversion Hq; subst acc fetched; clear Hq;
    assert (Hlen1 : len (results qst ++ taken) = totalProcessed sst + len taken)
      by (rewrite len_app; lia);
    destruct qstep as [r|req]; destruct sstep as [sr|req'];
    try contradiction; cbn [sameStep] in Hstep; subst;
    cbn [fst snd q_fetches results q_world sameOutcome].
  - repeat split; congruence.
  - repeat split; congruence.
  - repeat split; congruence.
  - rewrite Hw, <- Hsw.
    destruct (get (s_world sst1) req') as [resp w'].
    destruct resp as [e|next].
    + cbn [fst snd q_fetches results q_world s_events s_world sameOutcome].
      rewrite map_app, requestsOf_app, pagesOf_app, concat_app. simpl.
      rewrite app_nil_r. repeat split; congruence.
    + apply IH; cbn [q_fetches results q_world totalFetched s_events s_world
                     totalProcessed]; try congruence.
      * rewrite pagesOf_app, concat_app. simpl. rewrite app_nil_r. congruence.
      * rewrite map_app, requestsOf_app. simpl. congruence.
Qed.

(** X7. Under a page callback that always continues and touches nothing,
    [queryStream] and [query] are the same run: they issue the same
    requests, the pages handed to the callback, one after the other, are
    the records [query] accumulates, they leave the world in the same
    state, and they end alike: both pending, both rejected with the same
    error, or both resolved, the stream with [completed: true] and
    [totalProcessed] the number of records [query] returns. *)
Theorem stream_agrees_with_query (fuel : nat) (raw : RawOptions) (w : W) :
  let q := query get fuel raw w in
  let s := queryStream get (@keepGoing A W) fuel raw w in
  requestsOf (s_events (fst s)) = map fst (q_fetches (fst q)) /\
  List.concat (pagesOf (s_events (fst s))) = results (fst q) /\
  s_world (fst s) = q_world (fst q) /\
  sameOutcome (len (results (fst q))) (snd q) (snd s).
Proof.
  unfold query, queryStream.
  destruct (get w (requestOptions (mergeDefaults raw))) as [resp w'].
  destruct resp as [e|result].
  - simpl. auto.
  - destruct (@chains_agree (mergeDefaults raw) fuel
                {| results := []; totalFetched := 0; q_world := w';
                   q_fetches := [(requestOptions (mergeDefaults raw), inr result)] |}
                {| totalProcessed := 0; s_world := w';
                   s_events := [Fetched (requestOptions (mergeDefaults raw))
                                        (inr result)] |}
                result) as (H1 & H2 & H3 & H4); try reflexivity.
    cbn zeta. auto.
Qed.

End Agreement.

(** ** The records [queryBatch] hands over *)

Section BatchOrder.

Import Batch.

Variables A Err W : Type.
Variable get : W -> Request -> Response A Err * W.
Variable onBatchCallback : W -> list A -> BatchInfo -> bool * W.

(** The page callback books the page behind what is pending, up to the
    point where the batch callback stops it. *)
Lemma onPage_order batchSize pageInfo (pageResults : list A) :
  forall (st : BatchState A W) c st',
    onPage onBatchCallback batchSize st pageResults pageInfo = (c, st') ->
    exists dropped,
      List.concat (batches st) ++ currentBatch st ++ pageResults
      = List.concat (batches st') ++ currentBatch st' ++ dropped /\
      (c = true -> dropped = []).
Proof.
  induction pageResults as [|result rest IH]; intros st c st' H; simpl in H.
  - inversion H; subst. exists []. auto.
  - destruct (batchSize <=? len (currentBatch st ++ [result])).
    + destruct (emitBatch onBatchCallback (Stream.totalResultCount pageInfo) st
                          (currentBatch st ++ [result])) as [c1 st1] eqn:He.
      apply emitBatch_calls in He.
      destruct He as (info & _ & _ & _ & _ & _ & Hbs & Hcur & _).
      assert (E : List.concat (batches st) ++ currentBatch st ++ result :: rest
                  = List.concat (batches st1) ++ currentBatch st1 ++ rest).
      { rewrite Hbs, Hcur, concat_app. simpl.
        rewrite app_nil_r, <- !app_assoc. reflexivity. }
      destruct c1.
      * apply IH in H. destruct H as (dropped & H & Hc).
        exists dropped. split; [congruence | exact Hc].
      * inversion H; subst. exists rest. split; [exact E | discriminate].
    + apply IH in H. destruct H as (dropped & H & Hc). simpl in H.
      exists dropped. split; [|exact Hc].
      rewrite <- H, <- !app_assoc. reflexivity.
Qed.

(** One page of the underlying stream: unless the batch callback stops
    it, the records handed over so far are exactly the ones booked or
    pending. *)
Lemma batch_page_order batchSize options
    (st : Stream.StreamState A Err (BatchState A W)) result st1 step :
  Stream.processPages_page (pageCallback onBatchCallback batchSize) options st result
    = (st1, step) ->
  noStop (Stream.s_events st) ->
  List.concat (Stream.pagesOf (Stream.s_events st))
  = List.concat (batches (Stream.s_world st)) ++ currentBatch (Stream.s_world st) ->
  (noStop (Stream.s_events st1) /\
   List.concat (Stream.pagesOf (Stream.s_events st1))
   = List.concat (batches (Stream.s_world st1))
     ++ currentBatch (Stream.s_world st1)) \/
  (exists dropped r,
      List.concat (Stream.pagesOf (Stream.s_events st1))
      = List.concat (batches (Stream.s_world st1))
        ++ currentBatch (Stream.s_world st1) ++ dropped /\
      ~ noStop (Stream.s_events st1) /\
      step = Finish r).
Proof.
  intros Hp Hn Heq. apply processPages_page_cases in Hp.
  destruct Hp as [[-> _] | (pr & c & after & w1 & _ & _ & _ & Hcb & -> & Hstep)];
    [left; auto|].
  apply pageCallback_answer in Hcb. destruct Hcb as [Hcb ->].
  apply onPage_order in Hcb. destruct Hcb as (dropped & Hcb & Hc).
  unfold afterDelivery. cbn [Stream.s_events Stream.s_world].
  rewrite pagesOf_app, concat_app. simpl. rewrite app_nil_r, Heq, <- app_assoc.
  destruct c.
  - left. rewrite (Hc eq_refl), app_nil_r in Hcb. split; [|exact Hcb].
    apply noStop_snoc; [exact Hn | reflexivity].
  - right. exists dropped. eexists. split; [exact Hcb|]. split.
    + intros Hbad. apply Forall_app in Hbad. destruct Hbad as [_ Hbad].
      inversion Hbad as [|? ? Hhd ?]. discriminate.
    + rewrite Hstep. reflexivity.
Qed.

Lemma batch_stream_order batchSize options fuel :
  forall (st : Stream.StreamState A Err (BatchState A W)) result st' p,
    Stream.processPages (getB get) (pageCallback onBatchCallback batchSize)
      fuel options st result = (st', p) ->
    noStop (Stream.s_events st) ->
    List.concat (Stream.pagesOf (Stream.s_events st))
    = List.concat (batches (Stream.s_world st))
      ++ currentBatch (Stream.s_world st) ->
    exists dropped,
      List.concat (Stream.pagesOf (Stream.s_events st'))
      = List.concat (batches (Stream.s_world st'))
        ++ currentBatch (Stream.s_world st') ++ dropped /\
      (noStop (Stream.s_events st') -> dropped = []).
Proof.
  induction fuel as [|fuel IH]; intros st result st' p H Hn Heq; simpl in H;
    destruct (Stream.processPages_page (pageCallback onBatchCallback batchSize)
                options st result) as [st1 step] eqn:Hp;
    apply batch_page_order in Hp; auto;
    destruct Hp as [[Hn1 Heq1] | (dropped & r & Hlog & Hbad & ->)];
    try (inversion H; subst; exists dropped; split; [exact Hlog|];
         intros Hgood; contradiction).
  - exists []. rewrite app_nil_r. destruct step; inversion H; subst; auto.
  - destruct step as [r|req].
    + inversion H; subst. exists []. rewrite app_nil_r. auto.
    + unfold getB in H at 1.
      destruct (get (b_world (Stream.s_world st1)) req) as [resp w'].
      destruct resp as [e|next].
      * inversion H; subst. cbn [Stream.s_events Stream.s_world batches currentBatch].
        exists []. rewrite app_nil_r, pagesOf_app. simpl. rewrite app_nil_r. auto.
      * eapply IH; [exact H | |];
          cbn [Stream.s_events Stream.s_world batches currentBatch].
        -- apply noStop_snoc; [exact Hn1 | reflexivity].
        -- rewrite pagesOf_app. simpl. rewrite app_nil_r. exact Heq1.
Qed.

Lemma flush_order (st : BatchState A W) streamResult :
  let st' := fst (flush onBatchCallback st streamResult) in
  List.concat (batches st') = List.concat (batches st) ++ currentBatch st /\
  currentBatch st' = [].
Proof.
  unfold flush. cbn [fst].
  destruct (0 <? len (currentBatch st)) eqn:E; bools.
  - destruct (emitBatch onBatchCallback
                (Js.Num (Stream.sr_totalProcessed streamResult)) st
                (currentBatch st)) as [c st1] eqn:He.
    apply emitBatch_calls in He.
    destruct He as (info & _ & _ & _ & _ & _ & Hbs & Hcur & _).
    cbn [snd]. rewrite Hbs, concat_app. simpl. rewrite app_nil_r. auto.
  - assert (currentBatch st = []) as Hnil.
    { destruct (currentBatch st); [reflexivity|]. unfold len in E. simpl in E. lia. }
    rewrite Hnil, app_nil_r. auto.
Qed.

Lemma stream_order fuel raw batchSize (w : W) :
  let underlying := stream get onBatchCallback fuel raw batchSize w in
  exists dropped,
    List.concat (Stream.pagesOf (Stream.s_events (fst underlying)))
    = List.concat (batches (Stream.s_world (fst underlying)))
      ++ currentBatch (Stream.s_world (fst underlying)) ++ dropped /\
    (noStop (Stream.s_events (fst underlying)) -> dropped = []).
Proof.
  unfold stream, Stream.queryStream.
  destruct (getB get (initial A w) (requestOptions (mergeDefaults raw)))
    as [resp st0] eqn:Hg.
  assert (Hst0 : batches st0 = [] /\ currentBatch st0 = []).
  { unfold getB in Hg. cbn [initial b_world] in Hg.
    destruct (get w (requestOptions (mergeDefaults raw))) as [resp' w'].
    inversion Hg; subst. auto. }
  destruct Hst0 as [Hb0 Hc0].
  destruct resp as [e|result].
  - cbn. rewrite Hb0, Hc0. exists []. auto.
  - destruct (Stream.processPages (getB get) (pageCallback onBatchCallback batchSize)
                fuel (mergeDefaults raw) _ result) as [st' p] eqn:Hp.
    cbn [fst]. eapply batch_stream_order; [exact Hp | |].
    + repeat constructor.
    + cbn. rewrite Hb0, Hc0. reflexivity.
Qed.

(** X8. [queryBatch] preserves the order of the records: the batches
    handed to the batch callback, one after the other, followed by what
    is still pending, are a prefix of the records the underlying stream
    handed over, page after page.  They are all of them unless the batch
    callback stopped the stream; a resolved run leaves nothing pending,
    so that a completed run has handed over, in batches, exactly the
    records streamed. *)
Theorem batches_preserve_order
    (fuel : nat) (raw : RawOptions) (batchSizeArg : option Z) (w : W) :
  let batchSize :=
    match batchSizeArg with Some b => b | None => defaultBatchSize raw end in
  let underlying := stream get onBatchCallback fuel raw batchSize w in
  let streamed := List.concat (Stream.pagesOf (Stream.s_events (fst underlying))) in
  let run := queryBatch get onBatchCallback fuel raw batchSizeArg w in
  exists dropped,
    streamed = List.concat (batches (fst run)) ++ currentBatch (fst run) ++ dropped /\
    (noStop (Stream.s_events (fst underlying)) -> dropped = []) /\
    (forall r, snd run = Resolved r ->
       currentBatch (fst run) = [] /\
       (completed r = true -> streamed = List.concat (batches (fst run)))).
Proof.
  intros batchSize underlying streamed run.
  destruct (stream_order fuel raw batchSize w) as (dropped & Hlog & Hnone).
  fold underlying in Hlog, Hnone. fold streamed in Hlog.
  pose proof (@queryStream_stop _ _ _ (getB get) (pageCallback onBatchCallback batchSize)
                fuel raw (initial A w) (fst underlying) (snd underlying)
                (surjective_pairing underlying)) as [Hstop _].
  unfold run, queryBatch. fold batchSize. fold underlying.
  destruct underlying as [sst sp] eqn:Hu. cbn [fst snd] in *.
  destruct sp as [sr|e|].
  - pose proof (@flush_order (Stream.s_world sst) sr) as [Hb Hc].
    pose proof (@flush_result _ _ onBatchCallback (Stream.s_world sst) sr _ _
                  (surjective_pairing _)) as (_ & _ & Hcompleted & _ & _).
    destruct (flush onBatchCallback (Stream.s_world sst) sr) as [st1 r1].
    cbn [fst snd] in *.
    exists dropped. rewrite Hb, Hc. cbn [app]. rewrite <- app_assoc.
    split; [exact Hlog|]. split; [exact Hnone|].
    intros r E. inversion E; subst r. split; [reflexivity|].
    intros Hdone. rewrite Hcompleted in Hdone.
    destruct Hstop as [[Hn _] | (pre & page & info & after & _ & _ & Hp & _)].
    + rewrite (Hnone Hn), app_nil_r in Hlog. exact Hlog.
    + inversion Hp; subst sr. discriminate.
  - exists dropped. split; [exact Hlog|]. split; [exact Hnone|]. discriminate.
  - exists dropped. split; [exact Hlog|]. split; [exact Hnone|]. discriminate.
Qed.

End BatchOrder.

(** ** What [queryBatch] tells its callback *)

Section BatchTotals.

Import Batch.

Variables A Err W : Type.
Variable get : W -> Request -> Response A Err * W.
Variable onBatchCallback : W -> list A -> BatchInfo -> bool * W.

Lemma emitBatch_kept trc (st : BatchState A W) batch c st' :
  emitBatch onBatchCallback trc st batch = (c, st') -> Kept st -> Kept st'.
Proof.
  intros H (Hm & Ht & Hr). apply emitBatch_calls in H.
  destruct H as (info & Hc & _ & _ & Hinfo & _ & Hbs & _ & Htp).
  split; [|split].
  - rewrite Hc, Hbs, map_app, Hm. reflexivity.
  - rewrite Htp, Hbs, batchesTotal_app, Ht. unfold batchesTotal; simpl. lia.
  - intros pre call post E. rewrite Hc in E.
    apply list_snoc_split in E.
    destruct E as [(_ & -> & ->) | (post' & _ & E)]; [|eapply Hr; eauto].
    rewrite Hm, <- Ht. exact Hinfo.
Qed.

Lemma onPage_kept batchSize pageInfo (pageResults : list A) :
  forall (st : BatchState A W) c st',
    onPage onBatchCallback batchSize st pageResults pageInfo = (c, st') ->
    Kept st -> Kept st'.
Proof.
  induction pageResults as [|result rest IH]; intros st c st' H HK; simpl in H.
  - inversion H; subst. exact HK.
  - destruct (batchSize <=? len (currentBatch st ++ [result])).
    + destruct (emitBatch onBatchCallback (Stream.totalResultCount pageInfo) st
                          (currentBatch st ++ [result])) as [c1 st1] eqn:He.
      apply emitBatch_kept in He; [|exact HK].
      destruct c1; [eapply IH; eauto|]. inversion H; subst. exact He.
    + eapply IH; [exact H|]. exact HK.
Qed.

Lemma stream_kept fuel raw batchSize w sst sp :
  stream get onBatchCallback fuel raw batchSize w = (sst, sp) ->
  Kept (Stream.s_world sst).
Proof.
  intros Hs. unfold stream in Hs.
  apply (@queryStream_world_invariant _ _ _ _ _ (fun _ st => Kept st)) in Hs.
  - exact Hs.
  - intros n st req resp st' Hg HK. unfold getB in Hg.
    destruct (get (b_world st) req) as [r w']. inversion Hg; subst. exact HK.
  - intros n st page info c after st' Hcb _ HK.
    apply pageCallback_answer in Hcb. destruct Hcb as [Hcb _].
    eapply onPage_kept; eauto.
  - split; [reflexivity|]. split; [reflexivity|].
    intros pre call post E. destruct pre; discriminate.
Qed.

(** X9. Every [batchInfo] that [queryBatch] hands to the batch callback,
    the one of the final flush included, carries as [totalProcessed] the
    running total of the records handed over in batches so far, that
    batch included; this holds for every batch size. *)
Theorem batch_info_carries_running_total
    (fuel : nat) (raw : RawOptions) (batchSizeArg : option Z) (w : W) :
  runningBatchTotals
    (b_calls (fst (queryBatch get onBatchCallback fuel raw batchSizeArg w))).
Proof.
  unfold queryBatch.
  set (batchSize := match batchSizeArg with
                    | Some b => b
                    | None => defaultBatchSize raw
                    end).
  destruct (stream get onBatchCallback fuel raw batchSize w) as [sst sp] eqn:Hs.
  pose proof (stream_kept _ _ _ _ Hs) as HK.
  destruct sp as [sr|e|]; cbn [fst]; try (apply HK).
  unfold flush.
  destruct (0 <? len (currentBatch (Stream.s_world sst))); cbn [fst];
    [|apply HK].
  destruct (emitBatch onBatchCallback (Js.Num (Stream.sr_totalProcessed sr))
              (Stream.s_world sst) (currentBatch (Stream.s_world sst)))
    as [c st1] eqn:He.
  cbn [snd]. apply emitBatch_kept in He; [apply He | exact HK].
Qed.



End BatchTotals.


(** ** A failing fetch in [queryBatch] *)

Section BatchFailure.

Import Batch.

Variables A Err W : Type.
Variable get : W -> Request -> Response A Err * W.
Variable onBatchCallback : W -> list A -> BatchInfo -> bool * W.

(** X11. When a fetch of the underlying stream fails, [queryBatch] is
    rejected with exactly the error of that fetch and the final flush
    does not happen: the batch callback is not invoked again, and the
    records that were streamed but had not yet filled a batch stay in the
    pending batch, never handed over. *)
Theorem batch_fetch_failure_skips_the_flush
    (fuel : nat) (raw : RawOptions) (batchSizeArg : option Z) (w : W) :
  let batchSize :=
    match batchSizeArg with Some b => b | None => defaultBatchSize raw end in
  let underlying := stream get onBatchCallback fuel raw batchSize w in
  let streamed := List.concat (Stream.pagesOf (Stream.s_events (fst underlying))) in
  let run := queryBatch get onBatchCallback fuel raw batchSizeArg w in
  forall pre req e post,
    Stream.s_events (fst underlying) = pre ++ Stream.Fetched req (inl e) :: post ->
    snd run = Rejected e /\
    fst run = Stream.s_world (fst underlying) /\
    streamed = List.concat (map (@batchOf A) (b_calls (fst run)))
               ++ currentBatch (fst run).
Proof.
  intros batchSize underlying streamed run pre req e post E.
  destruct (@failed_fetch_is_last _ _ _ (getB get)
              (pageCallback onBatchCallback batchSize) fuel raw (initial A w)
              pre req e post E) as [_ Hrej].
  fold (stream get onBatchCallback fuel raw batchSize w) in Hrej.
  fold underlying in Hrej.
  destruct (@stream_order _ _ _ get onBatchCallback fuel raw batchSize w)
    as (dropped & Hlog & Hnone).
  fold underlying in Hlog, Hnone. fold streamed in Hlog.
  pose proof (@queryStream_stop _ _ _ (getB get) (pageCallback onBatchCallback batchSize)
                fuel raw (initial A w) (fst underlying) (snd underlying)
                (surjective_pairing underlying)) as [Hstop _].
  assert (Hrun : snd run = Rejected e /\ fst run = Stream.s_world (fst underlying)).
  { unfold run, queryBatch. fold batchSize. fold underlying.
    destruct underlying as [sst sp]. cbn [fst snd] in *. subst sp. auto. }
  destruct Hrun as [Hr Hst]. split; [exact Hr|]. split; [exact Hst|].
  assert (Hmap : map (@batchOf A) (b_calls (fst run)) = batches (fst run)).
  { rewrite Hst.
    destruct (@stream_kept _ _ _ get onBatchCallback fuel raw batchSize w
                (fst underlying) (snd underlying) (surjective_pairing underlying))
      as [Hm _].
    exact Hm. }
  rewrite Hmap.
  destruct Hstop as [[Hn _] | (pre' & page & info & after & _ & _ & Hp & _)].
  - rewrite (Hnone Hn), app_nil_r in Hlog. rewrite Hst. exact Hlog.
  - rewrite Hrej in Hp. discriminate.
Qed.

End BatchFailure.

(** A page of 100 records, then a rejected fetch, batches of 75: one
    batch was handed over, 25 records stay pending, and the run is
    rejected with the error of the fetch. *)
Lemma batch_fetch_failure_skips_the_flush_witness :
  let underlying := Batch.stream (@failingSecondFetch unit) Stub.always 5
                      (Stub.options (Some 100) None) 75 (O, tt) in
  let run := Batch.queryBatch (@failingSecondFetch unit) Stub.always 5
               (Stub.options (Some 100) None) (Some 75) (O, tt) in
  Stream.s_events (fst underlying)
  = firstn 2 (Stream.s_events (fst underlying))
    ++ Stream.Fetched {| qs_start := 101; qs_pagesize := 100 |}
         (inl "Unable to connect to server"%string) :: [] /\
  snd run = Rejected "Unable to connect to server"%string /\
  map (fun call => len (batchOf call)) (Batch.b_calls (fst run)) = [75] /\
  len (Batch.currentBatch (fst run)) = 25 /\
  List.concat (Stream.pagesOf (Stream.s_events (fst underlying)))
  = List.concat (map (@batchOf Z) (Batch.b_calls (fst run)))
    ++ Batch.currentBatch (fst run).
Proof.
  intros underlying run.
  assert (E : Stream.s_events (fst underlying)
              = firstn 2 (Stream.s_events (fst underlying))
                ++ Stream.Fetched {| qs_start := 101; qs_pagesize := 100 |}
                     (inl "Unable to connect to server"%string) :: [])
    by (vm_compute; reflexivity).
  split; [exact E|].
  destruct (@batch_fetch_failure_skips_the_flush Z string (Stub.World unit)
              failingSecondFetch Stub.always 5 (Stub.options (Some 100) None)
              (Some 75) (O, tt) _ _ _ _ E) as (Hr & _ & Hcat).
  split; [exact Hr|]. split; [vm_compute; reflexivity|].
  split; [vm_compute; reflexivity|]. exact Hcat.
Defined.

(** * Properties of the HTTP layer *)

Section TransportFacts.

Import Transport.

Variables J R W : Type.
Variable securityToken : R -> Js.value.
Variable httpRequest : W -> AxiosOptions J -> HttpOutcome R * W.
Variable wsapiUrl : string.

Abbreviation doRequest' := (doRequest httpRequest wsapiUrl).
Abbreviation auth' := (auth securityToken httpRequest wsapiUrl).
Abbreviation call' hasKey := (call securityToken httpRequest wsapiUrl hasKey).
Abbreviation calls' hasKey := (calls securityToken httpRequest wsapiUrl hasKey).

Lemma settle_outcome (options : Options J) outcome :
  match settle wsapiUrl options outcome with
  | inl e => wellFormedError e
  | inr v => @errorFree R v
  end.
Proof.
  destruct outcome as [status [v|vs]|status text| |message]; simpl;
    try (split; [discriminate|reflexivity]).
  destruct vs as [|[v|o] vs]; simpl; auto.
  destruct (Errors o) as [[|e es]|] eqn:E; simpl; auto.
  split; [discriminate|reflexivity].
Qed.

Lemma doRequest_session method options (s : Session J W) :
  let run := doRequest' method options s in
  sent (snd run) = sent s ++ [axiosOptions method options] /\
  _token (snd run) = _token s.
Proof.
  unfold doRequest.
  destruct (httpRequest (world s) (axiosOptions method options)) as [outcome w].
  simpl. auto.
Qed.

Lemma doRequest_outcome method options (s : Session J W) :
  match fst (doRequest' method options s) with
  | inl e => wellFormedError e
  | inr v => errorFree v
  end.
Proof.
  unfold doRequest.
  destruct (httpRequest (world s) (axiosOptions method options)) as [outcome w].
  cbn [fst]. apply settle_outcome.
Qed.

(** X12. Whatever axios answers, [doRequest] hands exactly one request
    to it and leaves the token alone; when it rejects, the error carries
    at least one message and its [message] is the first of them; when it
    resolves, the result carries no error: a body whose first value has
    a non-empty [Errors] never resolves, whatever the HTTP status. *)
Theorem rejections_carry_their_errors
    (method : string) (options : Options J) (s : Session J W) :
  let run := doRequest' method options s in
  sent (snd run) = sent s ++ [axiosOptions method options] /\
  _token (snd run) = _token s /\
  match fst run with
  | inl e => wellFormedError e
  | inr v => errorFree v
  end.
Proof.
  intros run. destruct (doRequest_session method options s) as [Hs Ht].
  split; [exact Hs|]. split; [exact Ht|].
  apply doRequest_outcome.
Qed.

Lemma prop_assign key v k (o : Entries) :
  prop k (assign key v o) = if String.eqb key k then v else prop k o.
Proof.
  induction o as [|[k0 x] o IH]; simpl.
  - destruct (String.eqb key k); reflexivity.
  - destruct (String.eqb k0 key) eqn:E0; simpl.
    + apply String.eqb_eq in E0. subst k0.
      destruct (String.eqb key k); reflexivity.
    + rewrite IH. destruct (String.eqb k0 k) eqn:E1; [|reflexivity].
      apply String.eqb_eq in E1. subst k0. rewrite String.eqb_sym, E0.
      reflexivity.
Qed.

Lemma has_assign key v k (o : Entries) :
  has k (assign key v o) = String.eqb key k || has k o.
Proof.
  induction o as [|[k0 x] o IH]; simpl.
  - reflexivity.
  - destruct (String.eqb k0 key) eqn:E0; simpl.
    + apply String.eqb_eq in E0. subst k0.
      destruct (String.eqb key k); reflexivity.
    + rewrite IH. destruct (String.eqb k0 k), (String.eqb key k); reflexivity.
Qed.

Lemma prop_absent k (o : Entries) : has k o = false -> prop k o = Js.Undefined.
Proof.
  induction o as [|[k0 x] o IH]; simpl; [reflexivity|].
  destruct (String.eqb k0 k); simpl; [discriminate|exact IH].
Qed.

(** X13. The request [doSecuredRequest] builds from the caller's options
    and the token differs from them in [qs.key] only: method, url and
    body are the caller's, every other query parameter is there with the
    value the caller gave it and none is added, and [key] is the token,
    which overrides a key of the caller's unless the token is undefined,
    in which case the caller's key, if any, stays. *)
Theorem token_goes_into_the_key_only
    (token : Js.value) (method : string) (options : Options J) :
  let request := axiosOptions method (withKey token options) in
  let given := match qs options with Some o => o | None => [] end in
  exists o,
    params request = Some o /\
    (forall k, k <> "key"%string ->
               prop k o = prop k given /\ has k o = has k given) /\
    has "key" o = true /\
    prop "key" o = match token with
                   | Js.Undefined => prop "key" given
                   | _ => token
                   end /\
    Transport.method request = toUpperCase method /\
    a_url request = url options /\
    data request = json options.
Proof.
  intros request given.
  exists (assignMergeValue given "key" token).
  split; [reflexivity|].
  assert (Hassign : forall v,
             (forall k, k <> "key"%string ->
                        prop k (assign "key" v given) = prop k given /\
                        has k (assign "key" v given) = has k given) /\
             has "key" (assign "key" v given) = true /\
             prop "key" (assign "key" v given) = v).
  { intros v. split; [|split].
    - intros k Hk. rewrite prop_assign, has_assign.
      destruct (String.eqb "key" k) eqn:E; [|auto].
      apply String.eqb_eq in E. congruence.
    - rewrite has_assign. reflexivity.
    - rewrite prop_assign. reflexivity. }
  destruct (Hassign token) as (Hother & Hhas & Hprop).
  unfold assignMergeValue.
  destruct token;
    try (split; [exact Hother | split; [exact Hhas | split; [exact Hprop | auto]]]).
  destruct (has "key" given) eqn:Hh.
  - split; [auto|]. split; [exact Hh|]. auto.
  - split; [exact Hother|]. split; [exact Hhas|]. split; [|auto].
    rewrite Hprop. symmetry. apply prop_absent. exact Hh.
Qed.

Lemma calls_app hasKey (cs cs' : list (Call J)) (s : Session J W) :
  calls' hasKey (cs ++ cs') s
  = let (rs, s1) := calls' hasKey cs s in
    let (rs', s2) := calls' hasKey cs' s1 in
    (rs ++ rs', s2).
Proof.
  revert s. induction cs as [|c cs IH]; intros s; simpl.
  - destruct (calls' hasKey cs' s). reflexivity.
  - destruct (call' hasKey c s) as [r s1]. rewrite IH.
    destruct (calls' hasKey cs s1) as [rs s2].
    destruct (calls' hasKey cs' s2) as [rs' s3]. reflexivity.
Qed.

Lemma call_with_key (c : Call J) (s : Session J W) :
  let run := call' true c s in
  sent (snd run) = sent s ++ [plainRequest c] /\ _token (snd run) = _token s.
Proof.
  destruct c; apply doRequest_session.
Qed.

Lemma call_with_token (c : Call J) (s : Session J W) :
  Js.truthy (_token s) = true ->
  let run := call' false c s in
  sent (snd run) = sent s ++ [keyedRequest (_token s) c] /\
  _token (snd run) = _token s.
Proof.
  intros Ht.
  destruct c; simpl; unfold get, post, put, del, doSecuredRequest;
    try rewrite Ht; apply doRequest_session.
Qed.

Lemma calls_with_token (cs : list (Call J)) :
  forall s : Session J W,
    Js.truthy (_token s) = true ->
    let run := calls' false cs s in
    sent (snd run) = sent s ++ map (keyedRequest (_token s)) cs /\
    _token (snd run) = _token s /\
    List.length (fst run) = List.length cs.
Proof.
  induction cs as [|c cs IH]; intros s Ht; simpl.
  - rewrite app_nil_r. auto.
  - destruct (call_with_token c s Ht) as [Hs1 Ht1].
    destruct (call' false c s) as [r s1]. cbn [fst snd] in *.
    assert (Ht' : Js.truthy (_token s1) = true) by (rewrite Ht1; exact Ht).
    destruct (IH s1 Ht') as (Hs2 & Ht2 & Hl).
    destruct (calls' false cs s1) as [rs s2]. cbn [fst snd] in *.
    rewrite Hs2, Hs1, Ht1, <- app_assoc. simpl.
    split; [reflexivity|]. split; [congruence | now rewrite Hl].
Qed.

(** X14. With an api key configured, any sequence of calls goes out as
    the caller gave it: one request per call, in order, nothing added to
    the query string, no authorization request, and the token is never
    set. *)
Theorem api_key_requests_go_out_as_given
    (cs : list (Call J)) (s : Session J W) :
  let run := calls' true cs s in
  sent (snd run) = sent s ++ map (@plainRequest J) cs /\
  _token (snd run) = _token s /\
  List.length (fst run) = List.length cs.
Proof.
  revert s. induction cs as [|c cs IH]; intros s; simpl.
  - rewrite app_nil_r. auto.
  - destruct (call_with_key c s) as [Hs1 Ht1].
    destruct (call' true c s) as [r s1]. cbn [fst snd] in *.
    destruct (IH s1) as (Hs2 & Ht2 & Hl).
    destruct (calls' true cs s1) as [rs s2]. cbn [fst snd] in *.
    rewrite Hs2, Hs1, <- app_assoc. simpl.
    split; [reflexivity|]. split; [congruence | now rewrite Hl].
Qed.

(** X15. Without an api key, a session that holds a token keeps it: any
    sequence of calls sends one request per call, in order, the secured
    ones ([post], [put], [del]) with that token as [qs.key] and [get] as
    it was given; no authorization request is made and the token does not
    change. *)
Theorem token_is_reused (cs : list (Call J)) (s : Session J W) :
  Js.truthy (_token s) = true ->
  let run := calls' false cs s in
  sent (snd run) = sent s ++ map (keyedRequest (_token s)) cs /\
  _token (snd run) = _token s /\
  List.length (fst run) = List.length cs.
Proof.
  apply calls_with_token.
Qed.

Lemma secured_call_authorizes (c : Call J) (s : Session J W) :
  Js.truthy (_token s) = false ->
  isSecured c = true ->
  let (authorized, s1) := auth' s in
  sent s1 = sent s ++ [authorizeRequest J] /\
  match authorized with
  | inl e => call' false c s = (inl e, s1) /\ _token s1 = _token s
  | inr _ =>
      call' false c s
      = doRequest' (methodOf c) (withKey (_token s1) (optionsOf c)) s1
  end.
Proof.
  intros Ht Hc.
  assert (Hcall : call' false c s
                  = doSecuredRequest securityToken httpRequest wsapiUrl false
                      (methodOf c) (optionsOf c) s)
    by (destruct c; [discriminate Hc|reflexivity..]).
  rewrite Hcall. unfold doSecuredRequest. rewrite Ht.
  pose proof (doRequest_session "get" (authorizeOptions J) s) as [Hs Htok].
  unfold auth.
  destruct (doRequest' "get" (authorizeOptions J) s) as [r s1].
  cbn [fst snd] in Hs, Htok.
  destruct r as [e|[v|o]]; [| destruct v |]; cbn [sent _token]; auto.
Qed.

Lemma auth_resolved (s : Session J W) answer w1 o :
  httpRequest (world s) (authorizeRequest J) = (answer, w1) ->
  settle wsapiUrl (authorizeOptions J) answer = inr (Object o) ->
  auth' s = (inr tt, {| _token := securityToken (fields o);
                        world := w1;
                        sent := sent s ++ [authorizeRequest J] |}).
Proof.
  intros Hhttp Hsettle. unfold auth, doRequest.
  fold (authorizeRequest J). rewrite Hhttp, Hsettle. reflexivity.
Qed.

(** X16. Without an api key and without a token, the first secured call
    authorizes, and when the answer carries a token the session
    authorizes only that once: the calls of any sequence that starts with
    a secured call are all sent, in order, the secured ones with the
    token of the answer as [qs.key], after a single authorization
    request. *)
Theorem session_authorizes_once
    (c : Call J) (cs : list (Call J)) (s : Session J W)
    (answer : HttpOutcome R) (w1 : W) (o : Result R) :
  Js.truthy (_token s) = false ->
  isSecured c = true ->
  httpRequest (world s) (authorizeRequest J) = (answer, w1) ->
  settle wsapiUrl (authorizeOptions J) answer = inr (Object o) ->
  Js.truthy (securityToken (fields o)) = true ->
  let token := securityToken (fields o) in
  let run := calls' false (c :: cs) s in
  sent (snd run)
  = sent s ++ authorizeRequest J :: map (keyedRequest token) (c :: cs) /\
  _token (snd run) = token /\
  List.length (fst run) = S (List.length cs).
Proof.
  intros Ht Hc Hhttp Hsettle Htoken token run.
  pose proof (secured_call_authorizes c s Ht Hc) as Hfirst.
  rewrite (auth_resolved s Hhttp Hsettle) in Hfirst.
  cbn [sent _token world] in Hfirst.
  destruct Hfirst as [_ Hcall]. fold token in Hcall.
  unfold run. cbn [calls]. rewrite Hcall.
  match goal with
  | |- context [doRequest' ?m ?opts ?s1] =>
      pose proof (doRequest_session m opts s1) as [Hs1 Ht1];
      destruct (doRequest' m opts s1) as [r s2]
  end.
  cbn [fst snd sent _token] in Hs1, Ht1.
  assert (Ht2 : Js.truthy (_token s2) = true) by (rewrite Ht1; exact Htoken).
  destruct (calls_with_token cs s2 Ht2) as (Hs & Htok & Hl).
  destruct (calls' false cs s2) as [rs s3]. cbn [fst snd] in *.
  rewrite Hs, Hs1, Ht1, Htok, Ht1. cbn [map]. unfold keyedRequest at 2.
  rewrite Hc, <- !app_assoc. simpl.
  split; [reflexivity|]. split; [reflexivity | now rewrite Hl].
Qed.

(** X17. Without an api key and without a token, as long as the
    authorization request fails no secured call reaches the server: each
    call of the sequence sends one authorization request and nothing
    else, and is rejected; the session stays without a token. *)
Theorem failed_authorization_sends_nothing_else
    (cs : list (Call J)) (s : Session J W) :
  (forall w,
      isRejection (settle wsapiUrl (authorizeOptions J)
                     (fst (httpRequest w (authorizeRequest J)))) = true) ->
  Js.truthy (_token s) = false ->
  Forall (fun c => isSecured c = true) cs ->
  let run := calls' false cs s in
  sent (snd run) = sent s ++ map (fun _ => authorizeRequest J) cs /\
  Forall (fun r => isRejection r = true) (fst run) /\
  List.length (fst run) = List.length cs /\
  _token (snd run) = _token s.
Proof.
  intros Hfail. revert s.
  induction cs as [|c cs IH]; intros s Ht Hcs; simpl.
  - rewrite app_nil_r. auto.
  - inversion Hcs as [|c' cs' Hc Hcs']; subst.
    pose proof (secured_call_authorizes c s Ht Hc) as Hfirst.
    assert (Hrej : isRejection (fst (auth' s)) = true).
    { unfold auth, doRequest. fold (authorizeRequest J).
      specialize (Hfail (world s)).
      destruct (httpRequest (world s) (authorizeRequest J)) as [outcome w].
      cbn [fst] in Hfail.
      destruct (settle wsapiUrl (authorizeOptions J) outcome); [reflexivity|].
      discriminate Hfail. }
    destruct (auth' s) as [[e|u] s1]; [|discriminate Hrej].
    destruct Hfirst as (Hs1 & Hcall & Ht1). rewrite Hcall.
    assert (Ht' : Js.truthy (_token s1) = false) by (rewrite Ht1; exact Ht).
    destruct (IH s1 Ht' Hcs') as (Hs & Hr & Hl & Htok).
    destruct (calls' false cs s1) as [rs s2]. cbn [fst snd] in *.
    rewrite Hs, Hs1, <- app_assoc. simpl.
    split; [reflexivity|]. split; [constructor; [reflexivity|exact Hr]|].
    split; [now rewrite Hl | congruence].
Qed.

End TransportFacts.

(** A put and a delete on a session that holds a token. *)
Lemma token_is_reused_witness :
  let run := Transport.calls securityTokenOf tokenServer "https://rally1.rallydev.com/slm/webservice/v2.0"
               false putThenDelete (fresh (Js.Str "foo")) in
  Js.truthy (Js.Str "foo") = true /\
  map (@Transport.params unit) (Transport.sent (snd run))
  = [ Some [("key", Js.Str "foo")];
      Some [("fetch", Js.Str "Name"); ("key", Js.Str "foo")] ]%string /\
  Transport._token (snd run) = Js.Str "foo".
Proof.
  intros run.
  assert (H : Js.truthy (Transport._token (fresh (Js.Str "foo"))) = true)
    by reflexivity.
  destruct (@token_is_reused unit Transport.Entries nat securityTokenOf
              tokenServer "https://rally1.rallydev.com/slm/webservice/v2.0"
              putThenDelete (fresh (Js.Str "foo")) H) as (Hs & Ht & _).
  split; [exact H|]. split; [|exact Ht].
  fold run in Hs. rewrite Hs. reflexivity.
Defined.

(** The same two calls on a fresh session: one authorization request,
    then the two calls with ['a secret token'] as key. *)
Lemma session_authorizes_once_witness :
  let run := Transport.calls securityTokenOf tokenServer "https://rally1.rallydev.com/slm/webservice/v2.0"
               false putThenDelete (fresh Js.Undefined) in
  map (fun request => (Transport.method request, Transport.a_url request,
                       Transport.params request))
      (Transport.sent (snd run))
  = [ ("GET", "/security/authorize", None);
      ("PUT", "/defect/1", Some [("key", Js.Str "a secret token")]);
      ("DELETE", "/defect/2",
       Some [("fetch", Js.Str "Name"); ("key", Js.Str "a secret token")]) ]%string /\
  Transport._token (snd run) = Js.Str "a secret token".
Proof.
  intros run.
  destruct (@session_authorizes_once unit Transport.Entries nat securityTokenOf
              tokenServer "https://rally1.rallydev.com/slm/webservice/v2.0"
              putDefect [deleteDefect] (fresh Js.Undefined)
              (Transport.Answered 200
                 (operationResult [("SecurityToken", Js.Str "a secret token")]))%string
              1%nat
              {| Transport.Errors := Some [];
                 Transport.Warnings := Some [];
                 Transport.fields := [("SecurityToken", Js.Str "a secret token")] |}%string
              eq_refl eq_refl eq_refl eq_refl eq_refl) as (Hs & Ht & _).
  split; [|exact Ht].
  fold putThenDelete in Hs. fold run in Hs. rewrite Hs. reflexivity.
Defined.

(** The two calls against a server that refuses to authorize: two
    authorization requests, two rejections. *)
Lemma failed_authorization_sends_nothing_else_witness :
  let run := Transport.calls securityTokenOf refusingServer "https://rally1.rallydev.com/slm/webservice/v2.0"
               false putThenDelete (fresh Js.Undefined) in
  map (@Transport.a_url unit) (Transport.sent (snd run))
  = [ "/security/authorize"; "/security/authorize" ]%string /\
  fst run = [ inl (Transport.Generated "Some key error" ["Some key error"]);
              inl (Transport.Generated "Some key error" ["Some key error"]) ]%string /\
  Transport._token (snd run) = Js.Undefined.
Proof.
  intros run.
  assert (Hfail : forall w,
             isRejection
               (Transport.settle "https://rally1.rallydev.com/slm/webservice/v2.0"
                  (Transport.authorizeOptions unit)
                  (fst (refusingServer w (authorizeRequest unit)))) = true)
    by (intros w; reflexivity).
  assert (Hsec : Forall (fun c => isSecured c = true) putThenDelete)
    by (repeat constructor).
  destruct (@failed_authorization_sends_nothing_else unit Transport.Entries nat
              securityTokenOf refusingServer
              "https://rally1.rallydev.com/slm/webservice/v2.0"
              putThenDelete (fresh Js.Undefined) Hfail eq_refl Hsec)
    as (Hs & _ & _ & Ht).
  split; [|split; [reflexivity | exact Ht]].
  fold run in Hs. rewrite Hs. reflexivity.
Defined.

(** * Properties of the operations of [RestApi] over the HTTP layer *)

Section RestApiFacts.

Import Transport RestApi.

Variables D R W : Type.
Variable securityToken : R -> Js.value.
Variable getRelative : Js.value -> option string.
Variable getType : Js.value -> string.
Variable httpRequest : W -> AxiosOptions (Json D) -> HttpOutcome R * W.
Variable wsapiUrl : string.
Variable _hasKey : bool.



(** X19. [get] never resolves with errors: the [Errors] of the object it
    resolves with is always empty, because a result that carries errors
    has been rejected by the layer below; and every rejection of [get],
    that of an invalid ref included, carries at least one message, the
    first of which is the message of the error. *)
Theorem get_resolves_without_errors
    (options : ApiOptions D) (s : Session (Json D) W) :
  match fst (RestApi.get getRelative httpRequest wsapiUrl options s) with
  | inr r => g_Errors r = []
  | inl e => wellFormedError e
  end.
Proof.
  unfold RestApi.get.
  destruct (relativeRef getRelative options) as [r|].
  - unfold Transport.get.
    pose proof (doRequest_outcome httpRequest wsapiUrl "get"
                  (requestFor getRelative r None options) s) as H.
    destruct (doRequest httpRequest wsapiUrl "get"
                (requestFor getRelative r None options) s) as [[e|v] s1];
      cbn [fst] in *; [exact H|].
    destruct v as [v|o]; [reflexivity|]. simpl in *.
    destruct H as [-> | ->]; reflexivity.
  - simpl. split; [discriminate|reflexivity].
Qed.

End RestApiFacts.

(** ** [query] over the HTTP layer *)

Section QueryTraffic.

Import Transport RestApi.

Variables D R W A : Type.
Variable httpRequest : W -> AxiosOptions (Json D) -> HttpOutcome R * W.
Variable wsapiUrl : string.
Variable envelopeOf : R -> Envelope A.
Variable render : Request -> Options (Json D).

Abbreviation fetch := (fetchPage httpRequest wsapiUrl envelopeOf render).
Abbreviation getOf :=
  (fun f : Request * Response A Failure => axiosOptions "get" (render (fst f))).

Lemma fetchPage_session (s : Session (Json D) W) req :
  sent (snd (fetch s req)) = sent s ++ [axiosOptions "get" (render req)] /\
  _token (snd (fetch s req)) = _token s.
Proof.
  unfold fetchPage, Transport.get.
  pose proof (doRequest_session httpRequest wsapiUrl "get" (render req) s) as H.
  destruct (doRequest httpRequest wsapiUrl "get" (render req) s) as [r s1].
  exact H.
Qed.

Lemma loadRemainingPages_traffic options before token fuel :
  forall (st : QueryState A Failure (Session (Json D) W)) result st' p,
    loadRemainingPages fetch fuel options st result = (st', p) ->
    sent (q_world st) = before ++ map getOf (q_fetches st) ->
    _token (q_world st) = token ->
    sent (q_world st') = before ++ map getOf (q_fetches st') /\
    _token (q_world st') = token.
Proof.
  induction fuel as [|fuel IH]; intros st result st' p H Hs Ht; simpl in H;
    destruct (loadRemainingPages_page options (results st) (totalFetched st) result)
      as [[acc fetched] step].
  - destruct step; inversion H; subst; simpl; auto.
  - destruct step as [r|req].
    + inversion H; subst; simpl; auto.
    + cbn [q_world q_fetches] in H.
      destruct (fetchPage_session (q_world st) req) as [Hs1 Ht1].
      destruct (fetch (q_world st) req) as [resp s1]. cbn [fst snd] in *.
      assert (Hs' : sent s1 = before ++ map getOf (q_fetches st ++ [(req, resp)])).
      { rewrite Hs1, Hs, map_app, <- app_assoc. reflexivity. }
      destruct resp as [e|next].
      * inversion H; subst. simpl. split; [exact Hs'|congruence].
      * eapply IH; [exact H| exact Hs' | simpl; congruence].
Qed.

(** X20. [query] reads through [request.get], which is not secured:
    whatever the session, with or without api key or token, a run of
    [query] hands axios exactly one GET request per page fetched, in
    order and as rendered; it sends no authorization request and leaves
    the token as it was. *)
Theorem query_sends_one_get_per_page
    (fuel : nat) (raw : RawOptions) (s : Session (Json D) W) :
  let run := query fetch fuel raw s in
  sent (q_world (fst run)) = sent s ++ map getOf (q_fetches (fst run)) /\
  _token (q_world (fst run)) = _token s.
Proof.
  unfold query.
  destruct (fetchPage_session s (requestOptions (mergeDefaults raw))) as [Hs Ht].
  destruct (fetch s (requestOptions (mergeDefaults raw))) as [resp s1].
  cbn [fst snd] in *.
  destruct resp as [e|result].
  - simpl. auto.
  - destruct (loadRemainingPages fetch fuel (mergeDefaults raw) _ result)
      as [st' p] eqn:Hl.
    cbn [fst]. eapply loadRemainingPages_traffic; [exact Hl|exact Hs|exact Ht].
Qed.

End QueryTraffic.
